(** * A small Lisp interpreter (lisp.cpp): lexer, parser, environments, evaluator

    Shallow embedding of [src/lisp.cpp].  Every definition below follows the
    C++ function of the same name.

    - [double] is IEEE binary64, here Rocq's primitive [float].
    - [std::string] is [string]; [code[i]] is [char_at].
    - [std::vector<T>] is [list T], [push_back] appends at the end.
    - [std::unordered_map<std::string, ExprPtr>] is [gmap string Expression].
    - [std::shared_ptr<Environment>] is a location in a store of frames: the
      frames are mutable and shared between closures and callers, so the
      store is threaded through evaluation.
    - [throw std::runtime_error(msg)] is the outcome [Throw (runtime_error msg)].
    - Loops that the C++ text does not bound ([while (i < code.length())] in
      the lexer, the recursion of [eval]) take a fuel argument and answer
      [OutOfFuel] when it is used up. *)

From Stdlib Require Import ZArith String Ascii Floats.
From stdpp Require Import gmap strings list.

Local Open Scope string_scope.
Local Open Scope bool_scope.

(** ** Exceptions and results *)

Inductive exception : Type :=
| runtime_error (what : string)
| invalid_argument (what : string)
| out_of_range (what : string).

(** Result of a computation that does not touch the environments.
    [Undefined] marks an out-of-bounds [operator[]] read of a vector. *)
Inductive result (A : Type) : Type :=
| Ok (a : A)
| Throw (e : exception)
| Undefined
| OutOfFuel.

Arguments Ok {A} a.
Arguments Throw {A} e.
Arguments Undefined {A}.
Arguments OutOfFuel {A}.

Definition rbind {A B : Type} (r : result A) (k : A -> result B) : result B :=
  match r with
  | Ok a => k a
  | Throw e => Throw e
  | Undefined => Undefined
  | OutOfFuel => OutOfFuel
  end.

Notation "'do' x <- c ; k" := (rbind c (fun x => k))
  (at level 10, x pattern, c at level 100, k at level 200).

(** ** Character classes of <cctype> in the "C" locale

    Characters above 127 belong to no class. *)

Definition char_between (lo hi : nat) (c : ascii) : bool :=
  (lo <=? nat_of_ascii c)%nat && (nat_of_ascii c <=? hi)%nat.

Definition isspace (c : ascii) : bool :=
  char_between 9 13 c || (nat_of_ascii c =? 32)%nat.

Definition isdigit (c : ascii) : bool := char_between 48 57 c.

Definition isalpha (c : ascii) : bool :=
  char_between 65 90 c || char_between 97 122 c.

Definition isalnum (c : ascii) : bool := isalpha c || isdigit c.

(** [strchr(s, c) != NULL]: the terminating NUL of [s] counts as part of it. *)
Fixpoint strchr (s : string) (c : ascii) : bool :=
  match s with
  | EmptyString => Ascii.eqb c Ascii.zero
  | String a rest => Ascii.eqb a c || strchr rest c
  end.

(** [code[i]]; [std::string::operator[]] at [i = code.length()] is NUL. *)
Definition char_at (code : string) (i : nat) : ascii :=
  match String.get i code with
  | Some c => c
  | None => Ascii.zero
  end.

(** ** Tokenization *)

Inductive TokenType : Type := PAREN_OPEN | PAREN_CLOSE | NUMBER | SYMBOL.

Record Token : Type := mkToken { type : TokenType; value : string }.

Definition TokenType_eqb (a b : TokenType) : bool :=
  match a, b with
  | PAREN_OPEN, PAREN_OPEN | PAREN_CLOSE, PAREN_CLOSE
  | NUMBER, NUMBER | SYMBOL, SYMBOL => true
  | _, _ => false
  end.

(** [while (i < code.length() && p(code[i])) i++;] and the final [i].
    [n] bounds the number of iterations; callers pass [code.length() - i]. *)
Fixpoint scan_while (p : ascii -> bool) (n : nat) (code : string) (i : nat) : nat :=
  match n with
  | O => i
  | S n' =>
      if (i <? String.length code)%nat && p (char_at code i)
      then scan_while p n' code (S i)
      else i
  end.

Definition scan (p : ascii -> bool) (code : string) (i : nat) : nat :=
  scan_while p (String.length code - i) code i.

Definition number_char (c : ascii) : bool := isdigit c || Ascii.eqb c ".".

Definition operator_chars : string := "+-*/%<>=!".

Definition symbol_char (c : ascii) : bool := isalnum c || strchr operator_chars c.

(** The [while (i < code.length())] loop of [tokenize], one iteration per
    unit of fuel, from cursor [i] with [tokens] already pushed. *)
Fixpoint tokenize_loop (fuel : nat) (code : string) (i : nat) (tokens : list Token)
  : result (list Token) :=
  match fuel with
  | O => OutOfFuel
  | S fuel' =>
      if (i <? String.length code)%nat then
        let c := char_at code i in
        if isspace c then
          tokenize_loop fuel' code (S i) tokens
        else if Ascii.eqb c "(" then
          tokenize_loop fuel' code (S i) (tokens ++ [mkToken PAREN_OPEN "("])
        else if Ascii.eqb c ")" then
          tokenize_loop fuel' code (S i) (tokens ++ [mkToken PAREN_CLOSE ")"])
        else if isdigit c || (Ascii.eqb c "-" && isdigit (char_at code (i + 1))) then
          let start := i in
          let i := scan number_char code i in
          tokenize_loop fuel' code i
            (tokens ++ [mkToken NUMBER (String.substring start (i - start) code)])
        else if isalpha c || strchr operator_chars c then
          let start := i in
          let i := scan symbol_char code i in
          tokenize_loop fuel' code i
            (tokens ++ [mkToken SYMBOL (String.substring start (i - start) code)])
        else
          Throw (runtime_error ("Unexpected character: " ++ String c ""))
      else Ok tokens
  end.

Definition tokenize (fuel : nat) (code : string) : result (list Token) :=
  tokenize_loop fuel code 0 [].


(** ** Numeric literals: [std::stod]

    [std::stod(str)] runs [strtod] on the text: white space is skipped, then
    an optional sign, decimal digits with at most one radix point (at least
    one digit), and an optional exponent are read; whatever follows is left
    unread.  It throws [invalid_argument] when nothing could be read and
    [out_of_range] when [strtod] reports ERANGE.  The hexadecimal, "inf" and
    "nan" forms of [strtod] all need a letter and are left out: the lexer
    puts only digits and dots in a NUMBER token. *)

Definition digit_value (c : ascii) : Z := Z.of_nat (nat_of_ascii c - 48).

(** Reads a run of digits: the number read so far, how many digits were
    read, and the text left. *)
Fixpoint read_digits (s : string) (acc : Z) (count : nat) : Z * nat * string :=
  match s with
  | String c rest =>
      if isdigit c then read_digits rest (10 * acc + digit_value c)%Z (S count)
      else (acc, count, s)
  | EmptyString => (acc, count, s)
  end.

Fixpoint skip_space (s : string) : string :=
  match s with
  | String c rest => if isspace c then skip_space rest else s
  | EmptyString => s
  end.

Definition read_sign (s : string) : bool * string :=
  match s with
  | String c rest =>
      if Ascii.eqb c "-" then (true, rest)
      else if Ascii.eqb c "+" then (false, rest)
      else (false, s)
  | EmptyString => (false, s)
  end.

(** The exponent part, 0 when there is none or it has no digit. *)
Definition read_exponent (s : string) : Z :=
  match s with
  | String c rest =>
      if Ascii.eqb c "e" || Ascii.eqb c "E" then
        let '(neg, rest) := read_sign rest in
        let '(e, count, _) := read_digits rest 0%Z 0 in
        match count with
        | O => 0%Z
        | S _ => if neg then (- e)%Z else e
        end
      else 0%Z
  | EmptyString => 0%Z
  end.

(** The decimal literal at the head of [s]: sign, digits [m] and power of
    ten [e], for the number [m * 10^e]; [None] when no digit is found. *)
Definition scan_decimal (s : string) : option (bool * Z * Z) :=
  let '(neg, s) := read_sign (skip_space s) in
  let '(ip, icount, s) := read_digits s 0%Z 0 in
  let '(m, fcount, s) :=
    match s with
    | String c rest =>
        if Ascii.eqb c "." then read_digits rest ip 0 else (ip, O, s)
    | EmptyString => (ip, O, s)
    end in
  match (icount + fcount)%nat with
  | O => None
  | S _ => Some (neg, m, (read_exponent s - Z.of_nat fcount)%Z)
  end.

(** [m * 10^e] rounded to the nearest binary64 number, ties to even. *)
Definition decimal_to_double (neg : bool) (m e : Z) : spec_float :=
  if (m =? 0)%Z then S754_zero neg
  else
    let num := if (0 <=? e)%Z then (m * 10 ^ e)%Z else m in
    let den := if (0 <=? e)%Z then 1%Z else (10 ^ (- e))%Z in
    SFdiv prec emax (S754_finite neg (Z.to_pos num) 0) (S754_finite false (Z.to_pos den) 0).

(** ERANGE: the rounded number is infinite, or it is below the least normal
    double and differs from the literal. *)
Definition erange (m e : Z) (x : spec_float) : bool :=
  match x with
  | S754_infinity _ => true
  | S754_zero _ => negb (m =? 0)%Z
  | S754_finite _ mx ex =>
      (Z.pos mx <? 2 ^ 52)%Z &&
      negb (if (0 <=? e)%Z
            then (Z.pos mx =? Z.shiftl (m * 10 ^ e) (- ex))%Z
            else (Z.pos mx * 10 ^ (- e) =? Z.shiftl m (- ex))%Z)
  | S754_nan => false
  end.

Definition stod (str : string) : result float :=
  match scan_decimal str with
  | None => Throw (invalid_argument "stod")
  | Some (neg, m, e) =>
      let x := decimal_to_double neg m e in
      if erange m e x then Throw (out_of_range "stod") else Ok (SF2Prim x)
  end.

(** ** Expressions, functions and environments *)

(** A [std::shared_ptr<Environment>]: the index of a frame in the store. *)
Abbreviation loc := nat (only parsing).

(** The two [BuiltinFunc] values that [addBuiltins] creates. *)
Inductive BuiltinFunc : Type := builtin_plus | builtin_minus.

(** [Expression::value] is a variant of [double], [std::string],
    [std::vector<ExprPtr>] and [std::shared_ptr<Function>].  A [Function] is
    built by one of two constructors: [Closure] for [Function(params, body,
    env)], which leaves [builtin] empty, and [Builtin] for
    [Function(builtin)].  Expressions and functions are never modified once
    built, so they are values here. *)
#[local] Unset Elimination Schemes.

Inductive Expression : Type :=
| Number (d : float)
| Symbol (s : string)
| ListOf (elems : list Expression)
| Func (f : Function)
with Function : Type :=
| Closure (params : list string) (body : Expression) (env : loc)
| Builtin (builtin : BuiltinFunc).

#[local] Set Elimination Schemes.

Definition isSymbol (expr : Expression) : bool :=
  match expr with Symbol _ => true | _ => false end.

Definition isNumber (expr : Expression) : bool :=
  match expr with Number _ => true | _ => false end.

Definition isList (expr : Expression) : bool :=
  match expr with ListOf _ => true | _ => false end.

Definition isFunction (expr : Expression) : bool :=
  match expr with Func _ => true | _ => false end.

(** ** Parsing

    [pos] is the cursor into [tokens]; each function returns the new cursor
    with its value.  The three functions call each other as in the source;
    the recursion is on [fuel]. *)

Fixpoint parseExpression (fuel : nat) (tokens : list Token) (pos : nat)
  : result (Expression * nat) :=
  match fuel with
  | O => OutOfFuel
  | S fuel' =>
      match tokens !! pos with
      | None => Undefined
      | Some token =>
          match type token with
          | NUMBER => do d <- stod (value token); Ok (Number d, S pos)
          | SYMBOL => Ok (Symbol (value token), S pos)
          | PAREN_OPEN => parseList fuel' tokens pos
          | PAREN_CLOSE => Throw (runtime_error "Unexpected token")
          end
      end
  end

with parseList (fuel : nat) (tokens : list Token) (pos : nat)
  : result (Expression * nat) :=
  match fuel with
  | O => OutOfFuel
  | S fuel' =>
      do (elems, pos) <- parseList_loop fuel' tokens (S pos) [];
      match tokens !! pos with
      | Some token =>
          if TokenType_eqb (type token) PAREN_CLOSE
          then Ok (ListOf elems, S pos)
          else Throw (runtime_error "Missing closing parenthesis")
      | None => Throw (runtime_error "Missing closing parenthesis")
      end
  end

(** The [while] loop of [parseList]: the list built so far and the cursor. *)
with parseList_loop (fuel : nat) (tokens : list Token) (pos : nat)
       (elems : list Expression) : result (list Expression * nat) :=
  match fuel with
  | O => OutOfFuel
  | S fuel' =>
      match tokens !! pos with
      | Some token =>
          if negb (TokenType_eqb (type token) PAREN_CLOSE) then
            do (expr, pos) <- parseExpression fuel' tokens pos;
            parseList_loop fuel' tokens pos (elems ++ [expr])
          else Ok (elems, pos)
      | None => Ok (elems, pos)
      end
  end.

Definition parse (fuel : nat) (code : string) : result Expression :=
  do tokens <- tokenize fuel code;
  do (expr, _) <- parseExpression fuel tokens 0;
  Ok expr.

(** [struct Environment]: the frame's own variables and the enclosing
    frame, [None] for [nullptr]. *)
Record Environment : Type := mkEnvironment {
  vars : gmap string Expression;
  outer : option loc
}.

(** The store of all frames ever made; [std::make_shared<Environment>]
    appends one, and none is ever freed while it can be reached. *)
Abbreviation Heap := (list Environment) (only parsing).

(** [Environment::find], walking the [outer] links.  A frame's [outer] is
    fixed when the frame is made and names an older frame, so a chain has
    at most as many frames as the store; that is the fuel [find] gives. *)
Fixpoint find_from (fuel : nat) (h : Heap) (env : loc) (var : string)
  : option Expression :=
  match fuel with
  | O => None
  | S fuel' =>
      match h !! env with
      | None => None
      | Some frame =>
          match vars frame !! var with
          | Some found => Some found
          | None =>
              match outer frame with
              | Some o => find_from fuel' h o var
              | None => None
              end
          end
      end
  end.

Definition find (h : Heap) (env : loc) (var : string) : option Expression :=
  find_from (List.length h) h env var.

(** [Environment::set]: [vars[var] = value] in the frame [env] itself. *)
Definition set (h : Heap) (env : loc) (var : string) (value : Expression) : Heap :=
  match h !! env with
  | Some frame => <[env := mkEnvironment (<[var := value]> (vars frame)) (outer frame)]> h
  | None => h
  end.

(** [std::make_shared<Environment>(outer)]: the new frame's location and
    the store with it. *)
Definition new_Environment (h : Heap) (outer : option loc) : loc * Heap :=
  (List.length h, (h ++ [mkEnvironment ∅ outer])%list).

(** ** Built-in functions *)

Local Open Scope float_scope.

(** The [for] loop of the [+] lambda. *)
Fixpoint plus_loop (args : list Expression) (sum : float) : result float :=
  match args with
  | [] => Ok sum
  | arg :: rest =>
      match arg with
      | Number d => plus_loop rest (sum + d)
      | _ => Throw (runtime_error "Arguments to '+' must be numbers")
      end
  end.

Definition plus (args : list Expression) : result Expression :=
  do sum <- plus_loop args 0; Ok (Number sum).

(** The [for] loop of the [-] lambda, from [i = 1]. *)
Fixpoint minus_loop (args : list Expression) (acc : float) : result float :=
  match args with
  | [] => Ok acc
  | arg :: rest =>
      match arg with
      | Number d => minus_loop rest (acc - d)
      | _ => Throw (runtime_error "Arguments to '-' must be numbers")
      end
  end.

Definition minus (args : list Expression) : result Expression :=
  match args with
  | [] => Throw (runtime_error "'-' requires at least one argument")
  | Number first :: rest =>
      match rest with
      | [] => Ok (Number (- first))
      | _ => do r <- minus_loop rest first; Ok (Number r)
      end
  | _ :: _ => Throw (runtime_error "Arguments to '-' must be numbers")
  end.

(** [func->builtin(args)] *)
Definition call_builtin (b : BuiltinFunc) (args : list Expression) : result Expression :=
  match b with
  | builtin_plus => plus args
  | builtin_minus => minus args
  end.

(** ** Evaluation *)

(** Outcome of a computation on the store: every outcome but running out of
    fuel leaves a store behind, a thrown exception too. *)
Inductive outcome (A : Type) : Type :=
| Returned (a : A) (h : Heap)
| Threw (e : exception) (h : Heap)
| Faulted
| Unfinished.

Arguments Returned {A} a h.
Arguments Threw {A} e h.
Arguments Faulted {A}.
Arguments Unfinished {A}.

Definition obind {A B : Type} (c : outcome A) (k : A -> Heap -> outcome B) : outcome B :=
  match c with
  | Returned a h => k a h
  | Threw e h => Threw e h
  | Faulted => Faulted
  | Unfinished => Unfinished
  end.

Notation "'run' x 'in' h <- c ; k" := (obind c (fun x h => k))
  (at level 10, x pattern, h name, c at level 100, k at level 200).

(** A computation that leaves the store as it is. *)
Definition lift {A : Type} (r : result A) (h : Heap) : outcome A :=
  match r with
  | Ok a => Returned a h
  | Throw e => Threw e h
  | Undefined => Faulted
  | OutOfFuel => Unfinished
  end.

(** The parameter loop of the [lambda] case. *)
Fixpoint lambda_params (elems : list Expression) : result (list string) :=
  match elems with
  | [] => Ok []
  | Symbol s :: rest => do params <- lambda_params rest; Ok (s :: params)
  | _ :: _ => Throw (runtime_error "Lambda parameters must be symbols")
  end.

(** The argument loop of an application, with [ev] for [eval]: the
    elements are evaluated from left to right in [env]. *)
Fixpoint eval_args (ev : Expression -> loc -> Heap -> outcome Expression)
    (elems : list Expression) (env : loc) (h : Heap) : outcome (list Expression) :=
  match elems with
  | [] => Returned [] h
  | e :: rest =>
      run v in h <- ev e env h;
      run args in h <- eval_args ev rest env h;
      Returned (v :: args) h
  end.

(** [localEnv->set(func->params[i], args[i])] for each [i]. *)
Fixpoint bind_params (h : Heap) (localEnv : loc) (params : list string)
    (args : list Expression) : Heap :=
  match params, args with
  | p :: params, a :: args => bind_params (set h localEnv p a) localEnv params args
  | _, _ => h
  end.

Definition truthy (cond : Expression) : bool :=
  match cond with
  | Number d => negb (d =? 0)
  | _ => false
  end.

(** Lines 242-255 of [eval], the call itself, with [ev] for [eval]:
    [func->builtin] is non-empty exactly for a [Builtin]. *)
Definition invoke (ev : Expression -> loc -> Heap -> outcome Expression)
    (func : Function) (args : list Expression) (h : Heap) : outcome Expression :=
  match func with
  | Builtin builtin => lift (call_builtin builtin args) h
  | Closure params body cenv =>
      if negb (List.length args =? List.length params)%nat then
        Threw (runtime_error "Incorrect number of arguments") h
      else
        let '(localEnv, h) := new_Environment h (Some cenv) in
        ev body localEnv (bind_params h localEnv params args)
  end.

(** The body of [eval], with [ev] for its recursive calls. *)
Definition eval_body (ev : Expression -> loc -> Heap -> outcome Expression)
    (expr : Expression) (env : loc) (h : Heap) : outcome Expression :=
  match expr with
  | Symbol s =>
      match find h env s with
      | Some found => Returned found h
      | None => Threw (runtime_error ("Undefined symbol: " ++ s)) h
      end
  | Number _ => Returned expr h
  | ListOf [] => Returned expr h
  | ListOf (Symbol sym :: rest) =>
      if String.eqb sym "define" then
        match rest with
        | [Symbol varName; e] =>
            run value in h <- ev e env h;
            Returned value (set h env varName value)
        | _ => Threw (runtime_error "Invalid define syntax") h
        end
      else if String.eqb sym "lambda" then
        match rest with
        | [ListOf ps; body] =>
            run params in h <- lift (lambda_params ps) h;
            Returned (Func (Closure params body env)) h
        | _ => Threw (runtime_error "Invalid lambda syntax") h
        end
      else if String.eqb sym "if" then
        match rest with
        | [c; t; e] =>
            run cond in h <- ev c env h;
            if truthy cond then ev t env h else ev e env h
        | _ => Threw (runtime_error "Invalid if syntax") h
        end
      else
        run funcExpr in h <- ev (Symbol sym) env h;
        match funcExpr with
        | Func func =>
            run args in h <- eval_args ev rest env h;
            invoke ev func args h
        | _ => Threw (runtime_error "First element is not a function") h
        end
  | ListOf (_ :: _) => Threw (runtime_error "First element must be a symbol") h
  | Func _ => Threw (runtime_error "Invalid expression") h
  end.

(** [eval]: each nested call of [eval] takes one unit of fuel. *)
Fixpoint eval (fuel : nat) (expr : Expression) (env : loc) (h : Heap)
  : outcome Expression :=
  match fuel with
  | O => Unfinished
  | S fuel' => eval_body (eval fuel') expr env h
  end.

(** ** The interpreter's start and one turn of its loop *)

(** [addBuiltins] on the fresh global frame. *)
Definition addBuiltins (h : Heap) (env : loc) : Heap :=
  set (set h env "+" (Func (Builtin builtin_plus))) env "-" (Func (Builtin builtin_minus)).

(** [main] before its loop: the global frame and the store holding it. *)
Definition startup : loc * Heap :=
  let '(globalEnv, h) := new_Environment [] None in
  (globalEnv, addBuiltins h globalEnv).

Definition globalEnv : loc := fst startup.

Definition initial_heap : Heap := snd startup.

(** The [try] block of [main] for one input line. *)
Definition read_eval (fuel : nat) (line : string) (h : Heap) : outcome Expression :=
  match parse fuel line with
  | Ok expr => eval fuel expr globalEnv h
  | Throw e => Threw e h
  | Undefined => Faulted
  | OutOfFuel => Unfinished
  end.

(** The loop of [main] over the given input lines, with the store carried
    from one line to the next: for each line its value or its exception,
    in place of what is printed. *)
Fixpoint main_loop (fuel : nat) (lines : list string) (h : Heap)
  : list (result Expression) :=
  match lines with
  | [] => []
  | line :: lines =>
      match read_eval fuel line h with
      | Returned v h => Ok v :: main_loop fuel lines h
      | Threw e h => Throw e :: main_loop fuel lines h
      | Faulted => [Undefined]
      | Unfinished => [OutOfFuel]
      end
  end.

(** ** Predicates used in the statements *)

Local Close Scope float_scope.

Arguments isspace : simpl never.
Arguments isdigit : simpl never.
Arguments isalpha : simpl never.

(** A cursor [i] of [code] on a [-] that is followed by a digit. *)
Definition on_minus_digit (code : string) (i : nat) : Prop :=
  (i < String.length code)%nat /\
  char_at code i = "-"%char /\
  isdigit (char_at code (i + 1)) = true.

(** A line of white space only (the empty line too). *)
Fixpoint blank (s : string) : bool :=
  match s with
  | EmptyString => true
  | String c rest => isspace c && blank rest
  end.

(** A text of decimal digits only. *)
Fixpoint digits (s : string) : bool :=
  match s with
  | EmptyString => true
  | String c rest => isdigit c && digits rest
  end.

(** The heads that [eval] treats as special forms. *)
Definition special (sym : string) : bool :=
  String.eqb sym "define" || String.eqb sym "lambda" || String.eqb sym "if".

(** The shape [eval] demands of what follows [define]: a symbol and one
    more element. *)
Definition define_shape (rest : list Expression) : bool :=
  match rest with
  | [Symbol _; _] => true
  | _ => false
  end.

(** No list of the term has [define] as its head. *)
Fixpoint no_define (expr : Expression) : bool :=
  match expr with
  | ListOf elems =>
      match elems with
      | Symbol sym :: _ => negb (String.eqb sym "define")
      | _ => true
      end && forallb no_define elems
  | _ => true
  end.

(** The store an outcome leaves behind. *)
Definition final_heap {A : Type} (o : outcome A) : option Heap :=
  match o with
  | Returned _ h | Threw _ h => Some h
  | Faulted | Unfinished => None
  end.

(** From [h] to [h'] no frame is lost, no frame but [env] is touched, and
    [env] keeps its [outer] link and every name it had. *)
Definition grows_only (env : loc) (h h' : Heap) : Prop :=
  (List.length h <= List.length h')%nat /\
  (forall l, l <> env -> (l < List.length h)%nat -> h' !! l = h !! l) /\
  (forall fr, h !! env = Some fr ->
     exists fr', h' !! env = Some fr' /\ outer fr' = outer fr /\
                 dom (vars fr) ⊆ dom (vars fr')).

(** The variables of a call frame after the binding loop: one insertion
    per parameter, in order. *)
Fixpoint bindings (m : gmap string Expression) (params : list string)
    (args : list Expression) : gmap string Expression :=
  match params, args with
  | p :: params, a :: args => bindings (<[p := a]> m) params args
  | _, _ => m
  end.

(** Every [outer] link of the store names an older frame. *)
Definition chains_ok (h : Heap) : Prop :=
  forall l fr o, h !! l = Some fr -> outer fr = Some o -> (o < l)%nat.

(** An evaluator whose every outcome fits [grows_only]. *)
Definition keeps (ev : Expression -> loc -> Heap -> outcome Expression) : Prop :=
  forall expr env h h',
    final_heap (ev expr env h) = Some h' -> grows_only env h h'.

(** [ev'] agrees with [ev] wherever [ev] has enough fuel to end. *)
Definition refines (ev ev' : Expression -> loc -> Heap -> outcome Expression) : Prop :=
  forall expr env h, ev expr env h <> Unfinished -> ev' expr env h = ev expr env h.

(** An evaluator that only adds frames when the term has no [define]. *)
Definition appends (ev : Expression -> loc -> Heap -> outcome Expression) : Prop :=
  forall expr env h h',
    no_define expr = true ->
    final_heap (ev expr env h) = Some h' -> exists k, h' = (h ++ k)%list.

(** The start store after [(define f (lambda (x) x))]. *)
Definition store_with_f : Heap :=
  set initial_heap globalEnv "f" (Func (Closure ["x"] (Symbol "x") globalEnv)).

(** Some argument is not a Number. *)
Definition has_non_number (args : list Expression) : bool :=
  existsb (fun arg => negb (isNumber arg)) args.

(** A closure value whose captured environment is a frame of a store of
    [n] frames; any other value. *)
Definition value_ok (n : nat) (v : Expression) : Prop :=
  match v with
  | Func (Closure _ _ cenv) => (cenv < n)%nat
  | _ => True
  end.

(** The stores the interpreter can reach: chains go to older frames and
    every closure held in a frame captured a frame of the store. *)
Definition store_ok (h : Heap) : Prop :=
  chains_ok h /\
  forall l fr x v, h !! l = Some fr -> vars fr !! x = Some v ->
                   value_ok (List.length h) v.

(** An evaluator that keeps the store reachable and returns values that
    fit it. *)
Definition sound (ev : Expression -> loc -> Heap -> outcome Expression) : Prop :=
  forall expr env h,
    store_ok h -> (env < List.length h)%nat ->
    match ev expr env h with
    | Returned v h' => store_ok h' /\ value_ok (List.length h') v
    | Threw _ h' => store_ok h'
    | Faulted | Unfinished => True
    end.

(** The line without its white space. *)
Fixpoint strip_space (s : string) : string :=
  match s with
  | EmptyString => EmptyString
  | String c rest => if isspace c then strip_space rest else String c (strip_space rest)
  end.

(** The texts of the tokens, one after the other. *)
Fixpoint texts (tokens : list Token) : string :=
  match tokens with
  | [] => EmptyString
  | token :: tokens => (value token ++ texts tokens)%string
  end.

(** Every character of the text is in the class [p]. *)
Fixpoint all_chars (p : ascii -> bool) (s : string) : bool :=
  match s with
  | EmptyString => true
  | String c rest => p c && all_chars p rest
  end.

(** The first character of the text is in the class [p]. *)
Definition first_char (p : ascii -> bool) (s : string) : bool :=
  match s with
  | EmptyString => false
  | String c _ => p c
  end.

(** What the text of a token looks like, by its type. *)
Definition token_ok (token : Token) : bool :=
  match type token with
  | PAREN_OPEN => String.eqb (value token) "("
  | PAREN_CLOSE => String.eqb (value token) ")"
  | NUMBER => first_char isdigit (value token) && all_chars number_char (value token)
  | SYMBOL =>
      first_char (fun c => isalpha c || strchr operator_chars c) (value token)
      && all_chars symbol_char (value token)
  end.

(** A character on which a token can start, or white space. *)
Definition lexable_start (c : ascii) : bool :=
  isspace c || Ascii.eqb c "(" || Ascii.eqb c ")" || isdigit c
  || isalpha c || strchr operator_chars c.

(** The part of the line from the cursor on. *)
Definition suffix (code : string) (i : nat) : string :=
  String.substring i (String.length code - i) code.

(** No [-] of the line stands directly before a digit. *)
Fixpoint minus_digit_free (s : string) : bool :=
  match s with
  | EmptyString => true
  | String c rest =>
      negb (Ascii.eqb c "-" && first_char isdigit rest) && minus_digit_free rest
  end.

(** A term written out as tokens, with [text] giving the text of each
    number. *)
Fixpoint tokens_of (text : float -> string) (expr : Expression) : list Token :=
  match expr with
  | Number d => [mkToken NUMBER (text d)]
  | Symbol s => [mkToken SYMBOL s]
  | ListOf elems =>
      mkToken PAREN_OPEN "(" :: flat_map (tokens_of text) elems
        ++ [mkToken PAREN_CLOSE ")"]
  | Func _ => []
  end.

(** A term the parser can yield from [tokens_of]: it holds no Function,
    and the text of each of its numbers converts to that number. *)
Fixpoint written (text : float -> string) (expr : Expression) : Prop :=
  match expr with
  | Number d => stod (text d) = Ok d
  | Symbol _ => True
  | ListOf elems => fold_right (fun e rest => written text e /\ rest) True elems
  | Func _ => False
  end.

(** A term that, written between any tokens, is parsed back from its
    first token, with the cursor left after its last. *)
Definition parsed_back (text : float -> string) (expr : Expression) : Prop :=
  written text expr ->
  forall pre post fuel,
    (2 * List.length (tokens_of text expr) <= fuel)%nat ->
    parseExpression fuel (pre ++ tokens_of text expr ++ post)%list (List.length pre) =
      Ok (expr, (List.length pre + List.length (tokens_of text expr))%nat).

(** The exceptions of the parser. *)
Definition parse_error (e : exception) : Prop :=
  e = runtime_error "Unexpected token" \/
  e = runtime_error "Missing closing parenthesis" \/
  e = invalid_argument "stod" \/
  e = out_of_range "stod".

(** The stores [main] can hold: the start store, and the store that any
    line leaves from one of them. *)
Inductive reachable : Heap -> Prop :=
| reachable_start : reachable initial_heap
| reachable_line (fuel : nat) (line : string) (h h' : Heap) :
    reachable h -> final_heap (read_eval fuel line h) = Some h' -> reachable h'.

(** The shape [eval] demands of what follows [lambda]: a list and one
    more element. *)
Definition lambda_shape (rest : list Expression) : bool :=
  match rest with
  | [ListOf _; _] => true
  | _ => false
  end.

(** A term with no Function in it: what the parser yields. *)
Fixpoint func_free (expr : Expression) : bool :=
  match expr with
  | ListOf elems => forallb func_free elems
  | Func _ => false
  | _ => true
  end.

(** A value whose body, when it is a closure, is such a term. *)
Definition body_ok (v : Expression) : Prop :=
  match v with
  | Func (Closure _ body _) => func_free body = true
  | _ => True
  end.

(** A store whose closures all have such bodies. *)
Definition bodies_ok (h : Heap) : Prop :=
  forall l fr x v, h !! l = Some fr -> vars fr !! x = Some v -> body_ok v.

(** The messages of the exceptions that [eval] and the built-ins throw on
    terms of the parser, but for "Undefined symbol: " and the name. *)
Definition eval_messages : list string :=
  ["Invalid define syntax"; "Invalid lambda syntax";
   "Lambda parameters must be symbols"; "Invalid if syntax";
   "First element is not a function"; "First element must be a symbol";
   "Incorrect number of arguments"; "Arguments to '+' must be numbers";
   "'-' requires at least one argument"; "Arguments to '-' must be numbers"].

Definition eval_error (e : exception) : Prop :=
  In e (map runtime_error eval_messages) \/
  exists s, e = runtime_error ("Undefined symbol: " ++ s)%string.

(** The exceptions that the loop of [main] can catch. *)
Definition reportable (e : exception) : Prop :=
  (exists c, e = runtime_error ("Unexpected character: " ++ String c "")%string) \/
  e = runtime_error "Unexpected token" \/
  e = runtime_error "Missing closing parenthesis" \/
  e = out_of_range "stod" \/
  eval_error e.

(** An evaluator that, on terms of the parser, keeps the bodies of the
    store such terms and throws only the exceptions above. *)
Definition tidy (ev : Expression -> loc -> Heap -> outcome Expression) : Prop :=
  forall expr env h,
    func_free expr = true -> bodies_ok h ->
    match ev expr env h with
    | Returned v h' => bodies_ok h' /\ body_ok v
    | Threw e h' => bodies_ok h' /\ eval_error e
    | Faulted | Unfinished => True
    end.

(** Sums and differences of numbers, nested at will: a Number, or a list
    headed by [+] with any arguments or by [-] with at least one. *)
Fixpoint arith (expr : Expression) : bool :=
  match expr with
  | Number _ => true
  | ListOf (Symbol sym :: args) =>
      (String.eqb sym "+" || (String.eqb sym "-" && negb (Nat.eqb (List.length args) 0)))
      && forallb arith args
  | _ => false
  end.

(** The number such a term stands for, computed as the loops of the
    built-ins compute it: from the left, starting from 0 for [+] and from
    the first argument for [-], a single argument of [-] being negated. *)
Fixpoint denote (expr : Expression) : float :=
  match expr with
  | Number d => d
  | ListOf (Symbol sym :: args) =>
      if String.eqb sym "+" then fold_left PrimFloat.add (map denote args) 0%float
      else
        match map denote args with
        | [] => 0%float
        | [d] => PrimFloat.opp d
        | d :: ds => fold_left PrimFloat.sub ds d
        end
  | _ => 0%float
  end.

(** How deep the lists of a term are nested. *)
Fixpoint depth (expr : Expression) : nat :=
  match expr with
  | ListOf elems => S (fold_right (fun e n => Nat.max (depth e) n) 0%nat elems)
  | _ => 0%nat
  end.

(** The statement for one such term, in a store where [+] and [-] are
    the built-ins as seen from [env]. *)
Definition evaluates_to_denotation (env : loc) (h : Heap) (expr : Expression) : Prop :=
  arith expr = true ->
  forall fuel, (depth expr < fuel)%nat ->
    eval fuel expr env h = Returned (Number (denote expr)) h.

(** * Properties *)

(** ** The lexer *)

Lemma append_nil (s : string) : "" ++ s = s.
Proof. reflexivity. Qed.

Lemma append_cons (c : ascii) (a s : string) : String c a ++ s = String c (a ++ s).
Proof. reflexivity. Qed.

Lemma substring_none (s : string) (i : nat) : String.substring i 0 s = "".
Proof.
  revert s. induction i as [|i IH]; intros [|c s]; simpl; auto.
Qed.

Section Lexer.

Variable code : string.

Lemma scan_while_stops (p : ascii -> bool) (n i : nat) :
  p (char_at code i) = false -> scan_while p n code i = i.
Proof.
  intros Hp. destruct n as [|n]; simpl; [reflexivity|].
  rewrite Hp, andb_false_r. reflexivity.
Qed.

(** On a [-] the inner loop of the NUMBER branch stops at once: a [-] is
    neither a digit nor a dot. *)
Lemma scan_minus (i : nat) :
  char_at code i = "-"%char -> scan number_char code i = i.
Proof.
  intros Hc. unfold scan. apply scan_while_stops. rewrite Hc. reflexivity.
Qed.

(** One turn of the loop on such a cursor pushes an empty NUMBER token
    and leaves the cursor where it is. *)
Lemma tokenize_loop_minus_digit_step (fuel i : nat) (tokens : list Token) :
  on_minus_digit code i ->
  tokenize_loop (S fuel) code i tokens =
  tokenize_loop fuel code i (tokens ++ [mkToken NUMBER ""]).
Proof.
  intros (Hlt & Hc & Hd). simpl.
  apply Nat.ltb_lt in Hlt. rewrite Hlt, Hc, Hd. simpl.
  rewrite (scan_minus i Hc), Nat.sub_diag, substring_none.
  reflexivity.
Qed.

(** So the loop never leaves that cursor, whatever the fuel. *)
Lemma tokenize_loop_minus_digit_stuck (fuel i : nat) (tokens : list Token) :
  on_minus_digit code i -> tokenize_loop fuel code i tokens = OutOfFuel.
Proof.
  intros Hi. revert tokens.
  induction fuel as [|fuel IH]; intros tokens; [reflexivity|].
  rewrite tokenize_loop_minus_digit_step by exact Hi. apply IH.
Qed.

End Lexer.

(** C2 (the code departs from it): on the line [-5], a [-] immediately
    followed by a digit, [tokenize] never returns: no amount of fuel yields
    a token sequence or an exception, where it should terminate with
    one Number token covering the sign and the digit.  The same holds of
    [(if -1 1 2)], where the loop reaches the [-] after four turns.  The
    unsigned [5] is lexed in two turns. *)
Theorem tokenize_minus_digit_never_returns :
  (forall fuel, tokenize fuel "-5" = OutOfFuel) /\
  (forall fuel, tokenize fuel "(if -1 1 2)" = OutOfFuel) /\
  tokenize 2 "5" = Ok [mkToken NUMBER "5"].
Proof.
  split; [|split; [|reflexivity]].
  - intros fuel. unfold tokenize.
    apply tokenize_loop_minus_digit_stuck.
    repeat split; simpl; lia.
  - intros fuel. unfold tokenize.
    do 4 (destruct fuel as [|fuel]; [reflexivity|]).
    simpl. apply tokenize_loop_minus_digit_stuck.
    split; [apply Nat.ltb_lt|split]; vm_compute; reflexivity.
Qed.

(** *** Blank lines *)

Lemma blank_char_at (s : string) (i : nat) :
  blank s = true -> (i < String.length s)%nat -> isspace (char_at s i) = true.
Proof.
  revert i. induction s as [|c s IH]; intros i Hb Hi; simpl in *; [lia|].
  apply andb_true_iff in Hb as [Hc Hs].
  destruct i as [|i]; [exact Hc|].
  unfold char_at in *. simpl. apply IH; [exact Hs | lia].
Qed.

(** On a blank line every turn of the loop skips one character, and the
    token sequence is returned as it was once the end is reached. *)
Lemma tokenize_loop_blank (code : string) (fuel i : nat) (tokens : list Token) :
  blank code = true ->
  tokenize_loop fuel code i tokens =
  if (String.length code - i <? fuel)%nat then Ok tokens else OutOfFuel.
Proof.
  intros Hb. revert i.
  induction fuel as [|fuel IH]; intros i; [reflexivity|].
  simpl tokenize_loop.
  destruct (i <? String.length code)%nat eqn:Hi.
  - apply Nat.ltb_lt in Hi.
    rewrite (blank_char_at code i Hb Hi), IH.
    replace (String.length code - i)%nat with (S (String.length code - S i)) by lia.
    reflexivity.
  - apply Nat.ltb_ge in Hi.
    replace (String.length code - i)%nat with 0%nat by lia.
    reflexivity.
Qed.

(** C10: on a blank line (white space only, or no character at all) the
    token sequence is empty, [parseExpression] reads [tokens[0]] out of
    bounds, and [parse] never yields a term: with fuel for the whole line
    it ends in the out-of-bounds read. *)
Theorem parse_blank_line_out_of_bounds (code : string) :
  blank code = true ->
  (forall fuel expr, parse fuel code <> Ok expr) /\
  (forall fuel, (String.length code < fuel)%nat -> parse fuel code = Undefined).
Proof.
  intros Hb.
  assert (Hp : forall fuel, parse fuel code =
            if (String.length code <? fuel)%nat then Undefined else OutOfFuel).
  { intros fuel. unfold parse, tokenize.
    rewrite (tokenize_loop_blank code fuel 0 [] Hb), Nat.sub_0_r.
    destruct (String.length code <? fuel)%nat eqn:Hf; [|reflexivity].
    apply Nat.ltb_lt in Hf. destruct fuel as [|fuel]; [lia|]. reflexivity. }
  split.
  - intros fuel expr. rewrite Hp.
    destruct (String.length code <? fuel)%nat; discriminate.
  - intros fuel Hf. rewrite Hp.
    apply Nat.ltb_lt in Hf. rewrite Hf. reflexivity.
Qed.

Lemma parse_blank_line_out_of_bounds_witness :
  blank "  " = true /\
  (forall fuel expr, parse fuel "  " <> Ok expr) /\
  (forall fuel, (String.length "  " < fuel)%nat -> parse fuel "  " = Undefined).
Proof.
  split; [reflexivity|].
  apply (parse_blank_line_out_of_bounds "  "). reflexivity.
Defined.

(** *** Every other line is lexed *)

Lemma scan_while_advances (p : ascii -> bool) (code : string) (n i : nat) :
  (i < String.length code)%nat -> p (char_at code i) = true -> (0 < n)%nat ->
  (i < scan_while p n code i)%nat.
Proof.
  intros Hi Hp Hn. destruct n as [|n]; [lia|]. simpl.
  apply Nat.ltb_lt in Hi. rewrite Hi, Hp. simpl.
  assert (forall k, (k <= scan_while p n code k)%nat) as Hmono.
  { clear. induction n as [|n IH]; intros k; simpl; [lia|].
    destruct ((k <? String.length code)%nat && p (char_at code k)); [|lia].
    specialize (IH (S k)). lia. }
  specialize (Hmono (S i)). lia.
Qed.

Lemma scan_advances (p : ascii -> bool) (code : string) (i : nat) :
  (i < String.length code)%nat -> p (char_at code i) = true ->
  (i < scan p code i)%nat.
Proof.
  intros Hi Hp. unfold scan. apply scan_while_advances; [assumption..|lia].
Qed.

Lemma tokenize_loop_S (fuel : nat) (code : string) (i : nat) (tokens : list Token) :
  tokenize_loop (S fuel) code i tokens =
  if (i <? String.length code)%nat then
    if isspace (char_at code i) then
      tokenize_loop fuel code (S i) tokens
    else if Ascii.eqb (char_at code i) "(" then
      tokenize_loop fuel code (S i) (tokens ++ [mkToken PAREN_OPEN "("])
    else if Ascii.eqb (char_at code i) ")" then
      tokenize_loop fuel code (S i) (tokens ++ [mkToken PAREN_CLOSE ")"])
    else if isdigit (char_at code i)
            || (Ascii.eqb (char_at code i) "-" && isdigit (char_at code (i + 1))) then
      tokenize_loop fuel code (scan number_char code i)
        (tokens ++ [mkToken NUMBER
                      (String.substring i (scan number_char code i - i) code)])
    else if isalpha (char_at code i) || strchr operator_chars (char_at code i) then
      tokenize_loop fuel code (scan symbol_char code i)
        (tokens ++ [mkToken SYMBOL
                      (String.substring i (scan symbol_char code i - i) code)])
    else Throw (runtime_error ("Unexpected character: " ++ String (char_at code i) ""))
  else Ok tokens.
Proof. reflexivity. Qed.

(** Away from a [-] followed by a digit every turn of the loop moves the
    cursor on, so the loop ends within one turn per character, plus one. *)
Lemma tokenize_loop_ends (code : string) (fuel i : nat) (tokens : list Token) :
  (forall j, ~ on_minus_digit code j) ->
  (String.length code - i < fuel)%nat ->
  tokenize_loop fuel code i tokens <> OutOfFuel.
Proof.
  intros Hfree. revert i tokens.
  induction fuel as [|fuel IH]; intros i tokens Hfuel; [lia|].
  rewrite tokenize_loop_S.
  destruct (i <? String.length code)%nat eqn:Hi; [|discriminate].
  apply Nat.ltb_lt in Hi.
  destruct (isspace (char_at code i)); [apply IH; lia|].
  destruct (Ascii.eqb (char_at code i) "("); [apply IH; lia|].
  destruct (Ascii.eqb (char_at code i) ")"); [apply IH; lia|].
  destruct (isdigit (char_at code i)) eqn:Hd.
  { cbn [orb]. apply IH.
    assert (i < scan number_char code i)%nat; [|lia].
    apply scan_advances; [exact Hi|]. unfold number_char. rewrite Hd. reflexivity. }
  cbn [orb].
  destruct (Ascii.eqb (char_at code i) "-" && isdigit (char_at code (i + 1))) eqn:Hm.
  { exfalso. apply andb_true_iff in Hm as [Hm Hnext].
    apply Ascii.eqb_eq in Hm. apply (Hfree i). repeat split; assumption. }
  destruct (isalpha (char_at code i) || strchr operator_chars (char_at code i)) eqn:Hs;
    [|discriminate].
  apply IH.
  assert (i < scan symbol_char code i)%nat; [|lia].
  apply scan_advances; [exact Hi|]. unfold symbol_char, isalnum.
  apply orb_true_iff in Hs as [Ha|Ho]; [rewrite Ha | rewrite Ho, orb_true_r]; reflexivity.
Qed.

(** The lexer reads nothing out of bounds. *)
Lemma tokenize_loop_defined (code : string) (fuel i : nat) (tokens : list Token) :
  tokenize_loop fuel code i tokens <> Undefined.
Proof.
  revert i tokens. induction fuel as [|fuel IH]; intros i tokens; [discriminate|].
  rewrite tokenize_loop_S.
  destruct (i <? String.length code)%nat; [|discriminate].
  destruct (isspace (char_at code i)); [apply IH|].
  destruct (Ascii.eqb (char_at code i) "("); [apply IH|].
  destruct (Ascii.eqb (char_at code i) ")"); [apply IH|].
  destruct (isdigit (char_at code i)
            || (Ascii.eqb (char_at code i) "-" && isdigit (char_at code (i + 1))));
    [apply IH|].
  destruct (isalpha (char_at code i) || strchr operator_chars (char_at code i));
    [apply IH | discriminate].
Qed.

(** On a line with no [-] immediately followed by a digit, [tokenize]
    returns tokens or throws, with fuel for one turn per character. *)
Lemma tokenize_ends (code : string) (fuel : nat) :
  (forall j, ~ on_minus_digit code j) ->
  (String.length code < fuel)%nat ->
  (exists tokens, tokenize fuel code = Ok tokens) \/
  (exists e, tokenize fuel code = Throw e).
Proof.
  intros Hfree Hfuel.
  pose proof (tokenize_loop_ends code fuel 0 [] Hfree ltac:(lia)) as Hends.
  pose proof (tokenize_loop_defined code fuel 0 []) as Hdef.
  unfold tokenize. destruct (tokenize_loop fuel code 0 []); eauto; congruence.
Qed.

(** *** What the tokens hold *)

Lemma append_nil_r (s : string) : s ++ "" = s.
Proof. induction s as [|c s IH]; [reflexivity|]. rewrite append_cons, IH. reflexivity. Qed.

Lemma append_assoc (a b c : string) : (a ++ b) ++ c = a ++ (b ++ c).
Proof.
  induction a as [|x a IH]; [reflexivity|]. rewrite !append_cons, IH. reflexivity.
Qed.

Lemma texts_snoc (tokens : list Token) (token : Token) :
  texts (tokens ++ [token]) = texts tokens ++ value token.
Proof.
  induction tokens as [|t tokens IH]; simpl.
  - rewrite append_nil. apply append_nil_r.
  - rewrite IH. symmetry. apply append_assoc.
Qed.

Lemma substring_step (s : string) (i m : nat) :
  (i < String.length s)%nat ->
  String.substring i (S m) s = String (char_at s i) (String.substring (S i) m s).
Proof.
  revert i. induction s as [|c s IH]; intros i Hi; simpl in Hi; [lia|].
  destruct i as [|i]; [reflexivity|].
  simpl. rewrite IH by lia. reflexivity.
Qed.

Lemma suffix_step (code : string) (i : nat) :
  (i < String.length code)%nat ->
  suffix code i = String (char_at code i) (suffix code (S i)).
Proof.
  intros Hi. unfold suffix.
  replace (String.length code - i)%nat with (S (String.length code - S i)) by lia.
  apply substring_step, Hi.
Qed.

Lemma suffix_end (code : string) (i : nat) :
  (String.length code <= i)%nat -> suffix code i = "".
Proof.
  intros Hi. unfold suffix.
  replace (String.length code - i)%nat with 0%nat by lia. apply substring_none.
Qed.

Lemma suffix_0 (code : string) : suffix code 0 = code.
Proof.
  unfold suffix. rewrite Nat.sub_0_r.
  induction code as [|c code IH]; [reflexivity|]. simpl. rewrite IH. reflexivity.
Qed.

(** What the inner loops leave: the cursor has moved over characters of
    the class only, and stays inside the line. *)
Lemma scan_while_spec (p : ascii -> bool) (code : string) (n i : nat) :
  (i <= scan_while p n code i)%nat /\
  ((i <= String.length code)%nat -> (scan_while p n code i <= String.length code)%nat) /\
  (forall k, (i <= k < scan_while p n code i)%nat -> p (char_at code k) = true).
Proof.
  revert i. induction n as [|n IH]; intros i; simpl.
  - repeat split; [lia..|]. intros k Hk. lia.
  - destruct ((i <? String.length code)%nat && p (char_at code i)) eqn:Hc.
    + apply andb_true_iff in Hc as [Hi Hp]. apply Nat.ltb_lt in Hi.
      destruct (IH (S i)) as (Hle & Hlen & Hall).
      split; [lia|]. split; [intros _; apply Hlen; lia|].
      intros k Hk. destruct (decide (k = i)) as [->|Hne]; [exact Hp|].
      apply Hall. lia.
    + repeat split; [lia..|]. intros k Hk. lia.
Qed.

(** The text between two cursors, when all of it is in a class. *)
Lemma substring_all_chars (p : ascii -> bool) (code : string) (n i : nat) :
  (i + n <= String.length code)%nat ->
  (forall k, (i <= k < i + n)%nat -> p (char_at code k) = true) ->
  all_chars p (String.substring i n code) = true.
Proof.
  revert i. induction n as [|n IH]; intros i Hlen Hall.
  - rewrite substring_none. reflexivity.
  - rewrite substring_step by lia. simpl.
    rewrite Hall by lia. apply IH; [lia|]. intros k Hk. apply Hall. lia.
Qed.

Lemma strip_space_token (p : ascii -> bool) (code : string) (n i : nat) :
  (forall c, p c = true -> isspace c = false) ->
  (i + n <= String.length code)%nat ->
  (forall k, (i <= k < i + n)%nat -> p (char_at code k) = true) ->
  strip_space (suffix code i) =
    String.substring i n code ++ strip_space (suffix code (i + n)).
Proof.
  intros Hp. revert i. induction n as [|n IH]; intros i Hlen Hall.
  - rewrite substring_none, Nat.add_0_r. reflexivity.
  - rewrite suffix_step, substring_step by lia. simpl.
    rewrite (Hp _ (Hall i ltac:(lia))), append_cons. f_equal.
    replace (i + S n)%nat with (S i + n)%nat by lia.
    apply IH; [lia|]. intros k Hk. apply Hall. lia.
Qed.

(** The classes of token characters hold no white space, and a token
    starts on a character of its class. *)
Lemma token_chars_not_space (c : ascii) :
  (number_char c = true -> isspace c = false) /\
  (symbol_char c = true -> isspace c = false) /\
  (isdigit c = true -> number_char c = true) /\
  (isalpha c || strchr operator_chars c = true -> symbol_char c = true).
Proof.
  destruct c as [[] [] [] [] [] [] [] []]; vm_compute; repeat split; congruence.
Qed.

Lemma scan_spec (p : ascii -> bool) (code : string) (i : nat) :
  (i < String.length code)%nat -> p (char_at code i) = true ->
  (i < scan p code i <= String.length code)%nat /\
  (forall k, (i <= k < scan p code i)%nat -> p (char_at code k) = true).
Proof.
  intros Hi Hp. pose proof (scan_advances p code i Hi Hp) as Hadv.
  unfold scan in *.
  destruct (scan_while_spec p code (String.length code - i) i) as (_ & Hlen & Hall).
  split; [split; [exact Hadv | apply Hlen; lia] | exact Hall].
Qed.

(** One token read by an inner loop: its text and what is left. *)
Lemma token_read (p : ascii -> bool) (code : string) (i : nat) :
  (forall c, p c = true -> isspace c = false) ->
  (i < String.length code)%nat -> p (char_at code i) = true ->
  strip_space (suffix code i) =
    String.substring i (scan p code i - i) code ++ strip_space (suffix code (scan p code i)) /\
  first_char (fun c => Ascii.eqb c (char_at code i))
    (String.substring i (scan p code i - i) code) = true /\
  all_chars p (String.substring i (scan p code i - i) code) = true.
Proof.
  intros Hsp Hi Hp. destruct (scan_spec p code i Hi Hp) as (Hj & Hall).
  set (j := scan p code i) in *.
  assert (forall k, (i <= k < i + (j - i))%nat -> p (char_at code k) = true) as Hall'.
  { intros k Hk. apply Hall. lia. }
  split; [|split].
  - rewrite (strip_space_token p code (j - i) i Hsp ltac:(lia) Hall').
    replace (i + (j - i))%nat with j by lia. reflexivity.
  - replace (j - i)%nat with (S (j - S i)) by lia.
    rewrite substring_step by exact Hi. simpl. apply Ascii.eqb_refl.
  - apply substring_all_chars; [lia | exact Hall'].
Qed.

Lemma first_char_eq (p : ascii -> bool) (c : ascii) (s : string) :
  first_char (fun x => Ascii.eqb x c) s = true -> p c = true -> first_char p s = true.
Proof.
  destruct s as [|x s]; simpl; [discriminate|].
  intros Hx Hp. apply Ascii.eqb_eq in Hx as ->. exact Hp.
Qed.

(** The invariant of the loop of [tokenize]: when the loop returns, the
    texts of the tokens are those it started with and then the rest of
    the line without its white space, and each token pushed has the text
    of its type. *)
Lemma tokenize_loop_texts (code : string) (fuel i : nat) (tokens out : list Token) :
  tokenize_loop fuel code i tokens = Ok out ->
  texts out = texts tokens ++ strip_space (suffix code i) /\
  (forallb token_ok tokens = true -> forallb token_ok out = true).
Proof.
  revert i tokens. induction fuel as [|fuel IH]; intros i tokens; [discriminate|].
  rewrite tokenize_loop_S.
  destruct (i <? String.length code)%nat eqn:Hi.
  2:{ apply Nat.ltb_ge in Hi. intros [= <-].
      rewrite suffix_end by exact Hi. simpl. rewrite append_nil_r. auto. }
  apply Nat.ltb_lt in Hi.
  destruct (token_chars_not_space (char_at code i)) as (Hnum & Hsym & Hdn & Has).
  rewrite (suffix_step code i Hi).
  destruct (isspace (char_at code i)) eqn:Hsp.
  { intros H. apply IH in H as [Ht Hok]. simpl. rewrite Hsp. auto. }
  simpl strip_space. rewrite Hsp.
  destruct (Ascii.eqb (char_at code i) "(") eqn:Hopen.
  { intros H. apply IH in H as [Ht Hok]. apply Ascii.eqb_eq in Hopen.
    rewrite Ht, texts_snoc, append_assoc, Hopen. split; [reflexivity|].
    intros Htok. apply Hok. rewrite forallb_app, Htok. reflexivity. }
  destruct (Ascii.eqb (char_at code i) ")") eqn:Hclose.
  { intros H. apply IH in H as [Ht Hok]. apply Ascii.eqb_eq in Hclose.
    rewrite Ht, texts_snoc, append_assoc, Hclose. split; [reflexivity|].
    intros Htok. apply Hok. rewrite forallb_app, Htok. reflexivity. }
  destruct (isdigit (char_at code i)) eqn:Hd.
  { cbn [orb]. intros H. apply IH in H as [Ht Hok].
    destruct (token_read number_char code i) as (Hstrip & Hfirst & Hall);
      [apply token_chars_not_space | exact Hi | exact (Hdn eq_refl) |].
    rewrite (suffix_step code i Hi) in Hstrip. simpl strip_space in Hstrip.
    rewrite Hsp in Hstrip.
    rewrite Ht, texts_snoc, append_assoc. cbn [value]. rewrite <- Hstrip.
    split; [reflexivity|].
    intros Htok. apply Hok. rewrite forallb_app, Htok. cbn [forallb].
    unfold token_ok. cbn [type value].
    rewrite (first_char_eq isdigit _ _ Hfirst Hd), Hall. reflexivity. }
  cbn [orb].
  destruct (Ascii.eqb (char_at code i) "-" && isdigit (char_at code (i + 1))) eqn:Hm.
  { apply andb_true_iff in Hm as [Hm Hnext]. apply Ascii.eqb_eq in Hm.
    rewrite (scan_minus code i Hm).
    rewrite (tokenize_loop_minus_digit_stuck code fuel i) by (repeat split; assumption).
    discriminate. }
  destruct (isalpha (char_at code i) || strchr operator_chars (char_at code i)) eqn:Hs;
    [|discriminate].
  intros H. apply IH in H as [Ht Hok].
  destruct (token_read symbol_char code i) as (Hstrip & Hfirst & Hall);
    [apply token_chars_not_space | exact Hi | exact (Has eq_refl) |].
  rewrite (suffix_step code i Hi) in Hstrip. simpl strip_space in Hstrip.
  rewrite Hsp in Hstrip.
  rewrite Ht, texts_snoc, append_assoc. cbn [value]. rewrite <- Hstrip.
  split; [reflexivity|].
  intros Htok. apply Hok. rewrite forallb_app, Htok. cbn [forallb].
  unfold token_ok. cbn [type value].
  rewrite (first_char_eq _ _ _ Hfirst Hs), Hall. reflexivity.
Qed.

Lemma minus_digit_free_spec (s : string) :
  minus_digit_free s = true -> forall j, ~ on_minus_digit s j.
Proof.
  induction s as [|c s IH]; intros Hfree j (Hlt & Hc & Hd); simpl in Hlt; [lia|].
  simpl in Hfree. apply andb_true_iff in Hfree as [Hhere Hfree].
  destruct j as [|j].
  - unfold char_at in Hc, Hd. simpl in Hc, Hd. subst c.
    destruct s as [|c' s]; simpl in Hd; [discriminate|].
    simpl in Hhere. rewrite Hd in Hhere. discriminate.
  - apply (IH Hfree j). repeat split; [lia | exact Hc | exact Hd].
Qed.

(** The loop ends in one of three ways only. *)
Lemma tokenize_loop_outcomes (code : string) (fuel i : nat) (tokens : list Token) :
  (exists out, tokenize_loop fuel code i tokens = Ok out) \/
  (exists c, tokenize_loop fuel code i tokens =
               Throw (runtime_error ("Unexpected character: " ++ String c ""))) \/
  tokenize_loop fuel code i tokens = OutOfFuel.
Proof.
  revert i tokens. induction fuel as [|fuel IH]; intros i tokens; [auto|].
  rewrite tokenize_loop_S.
  destruct (i <? String.length code)%nat; [|eauto].
  destruct (isspace (char_at code i)); [apply IH|].
  destruct (Ascii.eqb (char_at code i) "("); [apply IH|].
  destruct (Ascii.eqb (char_at code i) ")"); [apply IH|].
  destruct (isdigit (char_at code i)
            || (Ascii.eqb (char_at code i) "-" && isdigit (char_at code (i + 1))));
    [apply IH|].
  destruct (isalpha (char_at code i) || strchr operator_chars (char_at code i));
    [apply IH | eauto].
Qed.

(** X1: on a line where no [-] stands directly before a digit, [tokenize]
    ends within one turn of its loop per character and one more: it
    returns the tokens or throws "Unexpected character", nothing else. *)
Theorem tokenize_terminates (code : string) (fuel : nat) :
  minus_digit_free code = true ->
  (String.length code < fuel)%nat ->
  (exists tokens, tokenize fuel code = Ok tokens) \/
  (exists c, tokenize fuel code =
               Throw (runtime_error ("Unexpected character: " ++ String c ""))).
Proof.
  intros Hfree Hfuel.
  pose proof (tokenize_loop_ends code fuel 0 []
                (minus_digit_free_spec code Hfree) ltac:(lia)) as Hends.
  unfold tokenize.
  destruct (tokenize_loop_outcomes code fuel 0 []) as [H|[H|H]]; auto.
  contradiction.
Qed.

Lemma tokenize_terminates_witness :
  (exists tokens, tokenize 12 "(- a5 10.5)" = Ok tokens) \/
  (exists c, tokenize 12 "(- a5 10.5)" =
               Throw (runtime_error ("Unexpected character: " ++ String c ""))).
Proof.
  apply (tokenize_terminates "(- a5 10.5)" 12); [reflexivity | simpl; lia].
Defined.

Lemma tokenize_texts (code : string) (fuel : nat) (tokens : list Token) :
  tokenize fuel code = Ok tokens -> texts tokens = strip_space code.
Proof.
  intros H. apply tokenize_loop_texts in H as [Ht _].
  rewrite Ht, suffix_0. reflexivity.
Qed.

Lemma tokenize_tokens_ok (code : string) (fuel : nat) (tokens : list Token) :
  tokenize fuel code = Ok tokens -> forallb token_ok tokens = true.
Proof.
  intros H. apply tokenize_loop_texts in H as [_ Hok]. apply Hok. reflexivity.
Qed.

(** X2: the tokens that [tokenize] returns hold the whole line but its
    white space: their texts, one after the other, are the line with the
    white space taken out. *)
Theorem tokenize_keeps_all_but_space (code : string) (fuel : nat) (tokens : list Token) :
  tokenize fuel code = Ok tokens -> texts tokens = strip_space code.
Proof. apply tokenize_texts. Qed.

Lemma tokenize_keeps_all_but_space_witness :
  texts [mkToken PAREN_OPEN "("; mkToken SYMBOL "+"; mkToken NUMBER "1";
         mkToken NUMBER "2.5"; mkToken PAREN_CLOSE ")"] = strip_space "(+ 1  2.5)".
Proof.
  apply (tokenize_keeps_all_but_space "(+ 1  2.5)" 11). reflexivity.
Defined.

(** X3: every token that [tokenize] returns has the text of its type: a
    parenthesis token its parenthesis, a NUMBER token a digit followed by
    digits and dots, a SYMBOL token a letter or operator character
    followed by letters, digits and operator characters. *)
Theorem tokenize_tokens_well_formed (code : string) (fuel : nat) (tokens : list Token) :
  tokenize fuel code = Ok tokens -> forallb token_ok tokens = true.
Proof. apply tokenize_tokens_ok. Qed.

Lemma tokenize_tokens_well_formed_witness :
  forallb token_ok [mkToken PAREN_OPEN "("; mkToken SYMBOL "a-5";
                    mkToken NUMBER "1.2.3"; mkToken PAREN_CLOSE ")"] = true.
Proof.
  apply (tokenize_tokens_well_formed "(a-5 1.2.3)" 12). reflexivity.
Defined.

Lemma char_at_app_l (pre s : string) (i : nat) :
  (i < String.length pre)%nat -> char_at (pre ++ s) i = char_at pre i.
Proof.
  revert i. induction pre as [|c pre IH]; intros i Hi; simpl in Hi; [lia|].
  rewrite append_cons. destruct i as [|i]; [reflexivity|].
  unfold char_at in *. simpl. apply IH. lia.
Qed.

Lemma char_at_app_r (pre : string) (c : ascii) (s : string) :
  char_at (pre ++ String c s) (String.length pre) = c.
Proof.
  induction pre as [|x pre IH]; [reflexivity|].
  rewrite append_cons. unfold char_at in *. simpl. exact IH.
Qed.

Lemma length_append (a b : string) :
  String.length (a ++ b) = (String.length a + String.length b)%nat.
Proof.
  induction a as [|x a IH]; [reflexivity|]. rewrite append_cons. simpl. rewrite IH. reflexivity.
Qed.

(** X4: a line whose first character after leading white space can start
    no token (not a parenthesis, a digit, a letter or an operator
    character; a dot for one) makes [tokenize] throw "Unexpected
    character" with that character, whatever follows it. *)
Theorem tokenize_rejects_bad_start (pre rest : string) (c : ascii) (fuel : nat) :
  blank pre = true -> lexable_start c = false ->
  (String.length pre < fuel)%nat ->
  tokenize fuel (pre ++ String c rest) =
    Throw (runtime_error ("Unexpected character: " ++ String c "")).
Proof.
  intros Hb Hc Hfuel. unfold tokenize.
  assert (forall i tokens, (i <= String.length pre)%nat ->
            (String.length pre - i < fuel)%nat ->
            tokenize_loop fuel (pre ++ String c rest) i tokens =
              Throw (runtime_error ("Unexpected character: " ++ String c ""))) as Hloop.
  { clear Hfuel. induction fuel as [|fuel IH]; intros i tokens Hi Hfuel; [lia|].
    rewrite tokenize_loop_S, length_append. simpl String.length.
    replace (i <? String.length pre + S (String.length rest))%nat with true
      by (symmetry; apply Nat.ltb_lt; lia).
    destruct (decide (i = String.length pre)) as [->|Hne].
    - rewrite char_at_app_r.
      unfold lexable_start in Hc.
      apply orb_false_iff in Hc as [Hc Hop].
      apply orb_false_iff in Hc as [Hc Hal].
      apply orb_false_iff in Hc as [Hc Hd].
      apply orb_false_iff in Hc as [Hc Hclose].
      apply orb_false_iff in Hc as [Hsp Hopen].
      assert (Ascii.eqb c "-" = false) as Hminus.
      { apply Ascii.eqb_neq. intros ->. discriminate. }
      rewrite Hsp, Hopen, Hclose, Hd, Hminus, Hal, Hop. reflexivity.
    - rewrite char_at_app_l by lia.
      rewrite (blank_char_at pre i Hb) by lia. apply IH; lia. }
  apply Hloop; lia.
Qed.

Lemma tokenize_rejects_bad_start_witness :
  tokenize 3 ("  " ++ String "." "5") =
    Throw (runtime_error ("Unexpected character: " ++ String "." "")).
Proof.
  apply (tokenize_rejects_bad_start "  " "5" "." 3); [reflexivity | reflexivity | simpl; lia].
Defined.

(** *** The parser reads inside the token sequence *)

Lemma stod_defined (str : string) : stod str <> Undefined.
Proof.
  unfold stod. destruct (scan_decimal str) as [[[neg m] e]|]; [|discriminate].
  destruct (erange m e (decimal_to_double neg m e)); discriminate.
Qed.

Lemma rbind_defined {A B : Type} (r : result A) (k : A -> result B) :
  r <> Undefined -> (forall a, k a <> Undefined) -> rbind r k <> Undefined.
Proof. destruct r; simpl; auto. Qed.

(** From a cursor inside the sequence [parseExpression] never reads out
    of bounds, nor do [parseList] and its loop from any cursor: the one
    out-of-bounds read is that of the empty sequence. *)
Lemma parser_defined (tokens : list Token) (fuel : nat) :
  (forall pos, (pos < List.length tokens)%nat ->
     parseExpression fuel tokens pos <> Undefined) /\
  (forall pos, parseList fuel tokens pos <> Undefined) /\
  (forall pos elems, parseList_loop fuel tokens pos elems <> Undefined).
Proof.
  induction fuel as [|fuel (IHe & IHl & IHloop)]; [repeat split; discriminate|].
  split; [|split].
  - intros pos Hpos. simpl.
    destruct (lookup_lt_is_Some_2 tokens pos Hpos) as [token ->].
    destruct (type token); try discriminate.
    + apply IHl.
    + apply rbind_defined; [apply stod_defined | discriminate].
  - intros pos. simpl. apply rbind_defined; [apply IHloop|].
    intros [elems pos']. destruct (tokens !! pos') as [token|]; [|discriminate].
    destruct (TokenType_eqb (type token) PAREN_CLOSE); discriminate.
  - intros pos elems. simpl.
    destruct (tokens !! pos) as [token|] eqn:Htok; [|discriminate].
    destruct (negb (TokenType_eqb (type token) PAREN_CLOSE)); [|discriminate].
    apply rbind_defined.
    + apply IHe. eapply lookup_lt_Some, Htok.
    + intros [expr pos']. apply IHloop.
Qed.

(** *** The cursor of the parser *)

Lemma rbind_ends {A B : Type} (r : result A) (k : A -> result B) :
  r <> OutOfFuel -> (forall a, r = Ok a -> k a <> OutOfFuel) -> rbind r k <> OutOfFuel.
Proof. destruct r; simpl; auto. Qed.

Lemma rbind_Ok {A B : Type} (r : result A) (k : A -> result B) (b : B) :
  rbind r k = Ok b -> exists a, r = Ok a /\ k a = Ok b.
Proof. destruct r; simpl; try discriminate. eauto. Qed.

Lemma stod_ends (str : string) : stod str <> OutOfFuel.
Proof.
  unfold stod. destruct (scan_decimal str) as [[[neg m] e]|]; [|discriminate].
  destruct (erange m e (decimal_to_double neg m e)); discriminate.
Qed.

Section Cursor.

Variable tokens : list Token.

Let len := List.length tokens.

(** With three units of fuel per token left, none of the three functions
    runs out of fuel; and whenever one returns, the cursor has moved
    forward (for the loop: not backward) and not beyond the end. *)
Lemma parser_cursor (fuel : nat) :
  (forall pos,
     ((pos < len)%nat -> (3 * (len - pos) <= fuel)%nat ->
      parseExpression fuel tokens pos <> OutOfFuel) /\
     (forall expr pos', parseExpression fuel tokens pos = Ok (expr, pos') ->
                        (pos < pos' <= len)%nat)) /\
  (forall pos,
     ((pos < len)%nat -> (3 * (len - pos) <= fuel + 1)%nat ->
      parseList fuel tokens pos <> OutOfFuel) /\
     (forall expr pos', parseList fuel tokens pos = Ok (expr, pos') ->
                        (pos < pos' <= len)%nat)) /\
  (forall pos elems,
     ((pos <= len)%nat -> (3 * (len - pos) + 1 <= fuel)%nat ->
      parseList_loop fuel tokens pos elems <> OutOfFuel) /\
     (forall out pos', (pos <= len)%nat ->
                       parseList_loop fuel tokens pos elems = Ok (out, pos') ->
                       (pos <= pos' <= len)%nat)).
Proof.
  induction fuel as [|fuel (IHe & IHl & IHloop)].
  { repeat split; intros; try discriminate; lia. }
  split; [|split].
  - intros pos. simpl.
    destruct (tokens !! pos) as [token|] eqn:Htok.
    2:{ split; intros; discriminate. }
    pose proof (lookup_lt_Some _ _ _ Htok) as Hpos. fold len in Hpos.
    destruct (type token).
    + split; [intros ? ?; apply IHl; lia|].
      intros expr pos' H. apply (proj2 (IHl pos)) in H. exact H.
    + split; intros; discriminate.
    + split.
      * intros _ _. apply rbind_ends; [apply stod_ends | intros; discriminate].
      * intros expr pos' H. apply rbind_Ok in H as (d & _ & [= _ <-]). lia.
    + split; [intros; discriminate|]. intros expr pos' [= _ <-]. lia.
  - intros pos. simpl. split.
    + intros Hpos Hfuel. apply rbind_ends.
      * apply IHloop; lia.
      * intros [elems pos'] _. destruct (tokens !! pos') as [token|]; [|discriminate].
        destruct (TokenType_eqb (type token) PAREN_CLOSE); discriminate.
    + intros expr pos' H. apply rbind_Ok in H as ([elems p] & Hloop & H).
      destruct (tokens !! p) as [token|] eqn:Htok; [|discriminate].
      pose proof (lookup_lt_Some _ _ _ Htok) as Hp. fold len in Hp.
      destruct (TokenType_eqb (type token) PAREN_CLOSE); [|discriminate].
      injection H as _ <-.
      destruct (decide (S pos <= len)%nat) as [Hle|Hgt].
      * apply (proj2 (IHloop (S pos) [])) in Hloop; [lia | exact Hle].
      * exfalso.
        assert (parseList_loop fuel tokens (S pos) [] = Ok ([], S pos)) as Hstop.
        { destruct fuel as [|fuel']; [discriminate|]. simpl.
          rewrite (proj2 (lookup_ge_None tokens (S pos))) by (fold len; lia).
          reflexivity. }
        rewrite Hstop in Hloop. injection Hloop as _ <-. lia.
  - intros pos elems. simpl.
    destruct (tokens !! pos) as [token|] eqn:Htok.
    2:{ split; [intros; discriminate|]. intros out pos' Hpos [= _ <-]. lia. }
    pose proof (lookup_lt_Some _ _ _ Htok) as Hpos. fold len in Hpos.
    destruct (negb (TokenType_eqb (type token) PAREN_CLOSE)).
    2:{ split; [intros; discriminate|]. intros out pos' _ [= _ <-]. lia. }
    split.
    + intros _ Hfuel. apply rbind_ends.
      * apply IHe; lia.
      * intros [expr p] He. apply (proj2 (IHe pos)) in He.
        apply IHloop; lia.
    + intros out pos' _ H. apply rbind_Ok in H as ([expr p] & He & Hloop).
      apply (proj2 (IHe pos)) in He.
      apply (proj2 (IHloop p (elems ++ [expr])%list)) in Hloop; lia.
Qed.

End Cursor.

(** ** Numeric literals *)

Lemma isdigit_plain (c : ascii) :
  isdigit c = true ->
  isspace c = false /\ Ascii.eqb c "-" = false /\ Ascii.eqb c "+" = false.
Proof.
  unfold isdigit, isspace, char_between. intros H.
  apply andb_true_iff in H as [H1 H2].
  apply Nat.leb_le in H1, H2.
  repeat split.
  - apply orb_false_iff. split.
    + apply andb_false_iff. right. apply Nat.leb_gt. lia.
    + apply Nat.eqb_neq. lia.
  - apply Ascii.eqb_neq. intros ->.
    change (nat_of_ascii "-") with 45%nat in H1. lia.
  - apply Ascii.eqb_neq. intros ->.
    change (nat_of_ascii "+") with 43%nat in H1. lia.
Qed.

(** Reading digits in front of a text that does not start with a digit
    stops exactly where that text starts. *)
Lemma read_digits_app (a s : string) (acc : Z) (count : nat) :
  digits a = true ->
  (forall c r, s = String c r -> isdigit c = false) ->
  read_digits (a ++ s) acc count =
  (fst (fst (read_digits a acc count)), snd (fst (read_digits a acc count)), s).
Proof.
  intros Ha Hs. revert acc count.
  induction a as [|c a IH]; intros acc count.
  - rewrite append_nil. destruct s as [|c r]; [reflexivity|].
    simpl. rewrite (Hs c r eq_refl). reflexivity.
  - simpl in Ha. apply andb_true_iff in Ha as [Hc Ha].
    rewrite append_cons. simpl. rewrite Hc. apply IH. exact Ha.
Qed.

Lemma read_digits_all (a : string) (acc : Z) (count : nat) :
  digits a = true -> snd (read_digits a acc count) = "".
Proof.
  revert acc count. induction a as [|c a IH]; intros acc count Ha; simpl in *.
  - reflexivity.
  - apply andb_true_iff in Ha as [Hc Ha]. rewrite Hc. apply IH. exact Ha.
Qed.

Lemma read_digits_count (a : string) (acc : Z) (count : nat) :
  snd (fst (read_digits a acc count)) = O -> count = O.
Proof.
  revert acc count. induction a as [|c a IH]; intros acc count; simpl.
  - auto.
  - destruct (isdigit c); [|auto]. intros H. apply IH in H. discriminate.
Qed.

(** What [strtod] reads of [a.b] followed by anything that starts with a
    second dot is what it reads of [a.b] alone. *)
Lemma scan_decimal_second_dot (a b rest : string) :
  digits a = true -> digits b = true ->
  scan_decimal (a ++ "." ++ b ++ "." ++ rest) = scan_decimal (a ++ "." ++ b).
Proof.
  intros Ha Hb.
  assert (Hdot : forall t c r, "." ++ t = String c r -> isdigit c = false).
  { intros t c r H. injection H as <- _. reflexivity. }
  assert (Hhead : forall t, read_sign (skip_space (a ++ "." ++ t)) = (false, a ++ "." ++ t)).
  { intros t. destruct a as [|c a']; [reflexivity|]. simpl in Ha.
    apply andb_true_iff in Ha as [Hc _].
    rewrite append_cons. simpl.
    destruct (isdigit_plain c Hc) as (Hsp & Hm & Hp).
    rewrite Hsp. simpl. rewrite Hm, Hp. reflexivity. }
  unfold scan_decimal. rewrite !Hhead.
  rewrite !(read_digits_app a) by (eauto using Hdot).
  destruct (read_digits a 0 0) as [[ip icount] s0]. cbn [fst snd].
  change ("." ++ b ++ "." ++ rest) with (String "." (b ++ "." ++ rest)).
  change ("." ++ b) with (String "." b).
  cbn iota. rewrite Ascii.eqb_refl.
  rewrite (read_digits_app b ("." ++ rest)) by (eauto using Hdot).
  pose proof (read_digits_all b ip 0 Hb) as Hend.
  destruct (read_digits b ip 0) as [[m fcount] s1]. cbn [fst snd] in *. subst s1.
  reflexivity.
Qed.

Lemma scan_decimal_leading_digit (a t : string) :
  digits a = true -> a <> "" -> scan_decimal (a ++ t) <> None.
Proof.
  intros Ha Hne. destruct a as [|c a']; [congruence|]. simpl in Ha.
  apply andb_true_iff in Ha as [Hc Ha].
  unfold scan_decimal. rewrite append_cons. simpl skip_space.
  destruct (isdigit_plain c Hc) as (Hsp & Hm & Hp).
  rewrite Hsp. simpl read_sign. rewrite Hm, Hp.
  pose proof (read_digits_count (String c (a' ++ t)) 0 0) as Hcount.
  destruct (read_digits (String c (a' ++ t)) 0 0) as [[ip icount] s0] eqn:Hr.
  assert (icount <> O) as Hi.
  { intros ->. simpl in Hr. rewrite Hc in Hr.
    pose proof (read_digits_count (a' ++ t) (10 * 0 + digit_value c) 1) as H.
    rewrite Hr in H. specialize (H eq_refl). discriminate. }
  destruct (match s0 with
            | String c0 rest0 => if Ascii.eqb c0 "." then read_digits rest0 ip 0 else (ip, O, s0)
            | EmptyString => (ip, O, s0) end) as [[m fcount] s1].
  destruct icount; [congruence|]. discriminate.
Qed.

(** C9 (as the code has it): [std::stod] converts the leading decimal
    literal of the text and ignores what follows it.  A Number token whose
    text starts with a digit and holds a second dot is converted as the
    text before that dot, and the conversion does not fail as invalid. *)
Theorem number_token_converts_leading_literal
    (a b rest : string) (tokens : list Token) (pos fuel : nat) :
  digits a = true -> digits b = true -> a <> "" ->
  tokens !! pos = Some (mkToken NUMBER (a ++ "." ++ b ++ "." ++ rest)) ->
  parseExpression (S fuel) tokens pos =
    (do d <- stod (a ++ "." ++ b); Ok (Number d, S pos)) /\
  stod (a ++ "." ++ b) <> Throw (invalid_argument "stod").
Proof.
  intros Ha Hb Hne Htok. split.
  - simpl. rewrite Htok. simpl. unfold stod.
    rewrite (scan_decimal_second_dot a b rest Ha Hb). reflexivity.
  - unfold stod.
    pose proof (scan_decimal_leading_digit a ("." ++ b) Ha Hne) as Hs.
    destruct (scan_decimal (a ++ "." ++ b)) as [[[neg m] e]|]; [|congruence].
    destruct (erange m e (decimal_to_double neg m e)); discriminate.
Qed.

Lemma number_token_converts_leading_literal_witness :
  parseExpression 1 [mkToken NUMBER "1.2.3"] 0 =
    (do d <- stod "1.2"; Ok (Number d, 1%nat)) /\
  stod "1.2" <> Throw (invalid_argument "stod").
Proof.
  apply (number_token_converts_leading_literal "1" "2" "3" [mkToken NUMBER "1.2.3"] 0 0);
    [reflexivity | reflexivity | discriminate | reflexivity].
Defined.

(** C9 (as stated, refuted): the text [1.2.3] is not a floating-point
    literal, yet parsing it yields the number 1.2 and no error. *)
Lemma parse_two_dots_is_coerced :
  parse 2 "1.2.3" = Ok (Number 0x1.3333333333333p+0%float) /\
  parse 2 "1.2" = Ok (Number 0x1.3333333333333p+0%float).
Proof. split; vm_compute; reflexivity. Qed.

(** ** Frames and the store *)

Local Open Scope list_scope.

Section Store.

Implicit Types (h : Heap) (env l : loc) (var : string) (value : Expression).

Lemma set_length h env var value :
  List.length (set h env var value) = List.length h.
Proof.
  unfold set. destruct (h !! env); [apply length_insert | reflexivity].
Qed.

(** [set] writes into the frame [env] only. *)
Lemma set_lookup_ne h env l var value :
  l <> env -> set h env var value !! l = h !! l.
Proof.
  intros Hne. unfold set. destruct (h !! env); [|reflexivity].
  apply list_lookup_insert_ne. congruence.
Qed.

Lemma set_lookup_eq h env var value fr :
  h !! env = Some fr ->
  set h env var value !! env =
    Some (mkEnvironment (<[var := value]> (vars fr)) (outer fr)).
Proof.
  intros Hfr. unfold set. rewrite Hfr.
  apply list_lookup_insert_eq. eapply lookup_lt_Some, Hfr.
Qed.

(** Right after [set], [find] from the same frame sees the new value. *)
Lemma find_set_eq h env var value :
  (env < List.length h)%nat -> find (set h env var value) env var = Some value.
Proof.
  intros Hlt. unfold find. rewrite set_length.
  destruct (lookup_lt_is_Some_2 h env Hlt) as [fr Hfr].
  destruct (List.length h) as [|n]; [lia|]. simpl.
  rewrite (set_lookup_eq _ _ _ _ _ Hfr). simpl.
  rewrite lookup_insert_eq. reflexivity.
Qed.

Lemma bind_params_length h env params args :
  List.length (bind_params h env params args) = List.length h.
Proof.
  revert h args. induction params as [|p params IH]; intros h [|a args]; simpl; auto.
  rewrite IH. apply set_length.
Qed.

(** The binding loop fills the frame just made, and nothing else. *)
Lemma bind_params_last h m o params args :
  bind_params (h ++ [mkEnvironment m o]) (List.length h) params args =
  h ++ [mkEnvironment (bindings m params args) o].
Proof.
  revert m args. induction params as [|p params IH]; intros m [|a args]; simpl; auto.
  rewrite <- IH. f_equal. unfold set.
  rewrite lookup_app_r, Nat.sub_diag by lia. simpl.
  rewrite insert_app_r_alt, Nat.sub_diag by lia. reflexivity.
Qed.

(** [grows_only] is a preorder, and [set] on [env] fits it. *)
Lemma grows_only_refl env h : grows_only env h h.
Proof.
  repeat split; auto. intros fr Hfr. exists fr. repeat split; auto.
Qed.

Lemma grows_only_trans env h1 h2 h3 :
  grows_only env h1 h2 -> grows_only env h2 h3 -> grows_only env h1 h3.
Proof.
  intros (Hlen1 & Hother1 & Hown1) (Hlen2 & Hother2 & Hown2).
  split; [lia|]. split.
  - intros l Hne Hlt. rewrite Hother2, Hother1 by (auto; lia). reflexivity.
  - intros fr Hfr.
    destruct (Hown1 fr Hfr) as (fr2 & Hfr2 & Ho2 & Hd2).
    destruct (Hown2 fr2 Hfr2) as (fr3 & Hfr3 & Ho3 & Hd3).
    exists fr3. repeat split; [assumption | congruence | set_solver].
Qed.

Lemma grows_only_set env h var value : grows_only env h (set h env var value).
Proof.
  split; [rewrite set_length; lia|]. split.
  - intros l Hne _. apply set_lookup_ne. exact Hne.
  - intros fr Hfr. rewrite (set_lookup_eq _ _ _ _ _ Hfr).
    eexists. split; [reflexivity|]. simpl. split; [reflexivity|].
    rewrite dom_insert. set_solver.
Qed.

(** A store that agrees with [h] on all of [h]'s frames is [h] followed
    by newer frames. *)
Lemma agree_app h h' :
  (List.length h <= List.length h')%nat ->
  (forall l, (l < List.length h)%nat -> h' !! l = h !! l) ->
  exists k, h' = h ++ k.
Proof.
  intros Hlen Hagree. exists (drop (List.length h) h').
  rewrite <- (take_drop (List.length h) h') at 1. f_equal.
  apply list_eq. intros i.
  destruct (decide (i < List.length h)%nat) as [Hi|Hi].
  - rewrite lookup_take_lt by exact Hi. apply Hagree, Hi.
  - rewrite lookup_take_ge by lia. symmetry. apply lookup_ge_None. lia.
Qed.

(** What ran in a frame made after [h] left [h] alone. *)
Lemma grows_only_fresh h k h' :
  grows_only (List.length h) (h ++ k) h' -> exists k', h' = h ++ k'.
Proof.
  intros (Hlen & Hother & _). rewrite length_app in Hlen.
  apply agree_app; [lia|].
  intros l Hl. rewrite Hother by (rewrite ?length_app; lia).
  apply lookup_app_l, Hl.
Qed.

Lemma app_grows_only env h k : grows_only env h (h ++ k).
Proof.
  split; [rewrite length_app; lia|]. split.
  - intros l _ Hl. apply lookup_app_l, Hl.
  - intros fr Hfr. exists fr. split; [|auto].
    rewrite lookup_app_l; [exact Hfr | eapply lookup_lt_Some, Hfr].
Qed.

End Store.

Lemma find_from_app (h k : Heap) (n : nat) (l : loc) (x : string) :
  chains_ok h -> (l < List.length h)%nat ->
  find_from n (h ++ k) l x = find_from n h l x.
Proof.
  intros Hok. revert l. induction n as [|n IH]; intros l Hl; simpl; [reflexivity|].
  rewrite lookup_app_l by exact Hl.
  destruct (h !! l) as [fr|] eqn:Hfr; [|reflexivity].
  destruct (vars fr !! x); [reflexivity|].
  destruct (outer fr) as [o|] eqn:Ho; [|reflexivity].
  apply IH. specialize (Hok l fr o Hfr Ho). lia.
Qed.

(** A chain from [l] has at most [l + 1] frames: any more fuel is idle. *)
Lemma find_from_enough (h : Heap) (n m : nat) (l : loc) (x : string) :
  chains_ok h -> (l < n)%nat -> (l < m)%nat ->
  find_from n h l x = find_from m h l x.
Proof.
  intros Hok. revert m l. induction n as [|n IH]; intros m l Hn Hm; [lia|].
  destruct m as [|m]; [lia|]. simpl.
  destruct (h !! l) as [fr|] eqn:Hfr; [|reflexivity].
  destruct (vars fr !! x); [reflexivity|].
  destruct (outer fr) as [o|] eqn:Ho; [|reflexivity].
  specialize (Hok l fr o Hfr Ho). apply IH; lia.
Qed.

(** Frames added after [h] are not seen from a frame of [h]. *)
Lemma find_app (h k : Heap) (l : loc) (x : string) :
  chains_ok h -> (l < List.length h)%nat -> find (h ++ k) l x = find h l x.
Proof.
  intros Hok Hl. unfold find. rewrite find_from_app by assumption.
  apply find_from_enough; [exact Hok | rewrite length_app; lia | exact Hl].
Qed.


(** ** Parsing what was written *)

(** Induction on a term and on the elements of its lists. *)
Lemma Expression_nested_ind (P : Expression -> Prop) :
  (forall d, P (Number d)) ->
  (forall s, P (Symbol s)) ->
  (forall elems, Forall P elems -> P (ListOf elems)) ->
  (forall f, P (Func f)) ->
  forall expr, P expr.
Proof.
  intros Hnum Hsym Hlist Hfunc.
  fix IH 1. intros [d|s|elems|f]; [apply Hnum | apply Hsym | | apply Hfunc].
  apply Hlist. induction elems as [|e elems IHelems]; constructor;
    [apply IH | exact IHelems].
Qed.

Lemma written_ListOf (text : float -> string) (elems : list Expression) :
  written text (ListOf elems) <-> Forall (written text) elems.
Proof.
  simpl. induction elems as [|e elems IH]; simpl.
  - split; auto.
  - rewrite Forall_cons, IH. reflexivity.
Qed.

(** What is written of a term never starts with a closing parenthesis. *)
Lemma tokens_of_head (text : float -> string) (expr : Expression) :
  written text expr ->
  exists token rest, tokens_of text expr = token :: rest /\
                     TokenType_eqb (type token) PAREN_CLOSE = false.
Proof.
  destruct expr as [d|s|elems|f]; simpl; intros H; try contradiction; eauto.
Qed.

Section RoundTrip.

Variable text : float -> string.

(** The loop of [parseList] on written elements, up to a closing
    parenthesis or the end of the tokens. *)
Lemma parseList_loop_written (elems : list Expression) :
  Forall (parsed_back text) elems -> Forall (written text) elems ->
  forall pre tail acc fuel,
    tail = [] \/ (exists post, tail = mkToken PAREN_CLOSE ")" :: post) ->
    (2 * List.length (flat_map (tokens_of text) elems) + 1 <= fuel)%nat ->
    parseList_loop fuel (pre ++ flat_map (tokens_of text) elems ++ tail)
                   (List.length pre) acc =
      Ok (acc ++ elems,
          (List.length pre + List.length (flat_map (tokens_of text) elems))%nat).
Proof.
  induction elems as [|e elems IH]; intros Hback Hwr pre tail acc fuel Htail Hfuel.
  - destruct fuel as [|fuel]; [lia|]. simpl.
    rewrite app_nil_r, Nat.add_0_r.
    destruct Htail as [->|[post ->]].
    + rewrite app_nil_r, (proj2 (lookup_ge_None pre (List.length pre))) by lia.
      reflexivity.
    + rewrite list_lookup_middle by reflexivity. reflexivity.
  - apply Forall_cons in Hback as [He Hback]. apply Forall_cons in Hwr as [Hwe Hwr].
    destruct fuel as [|fuel]; [lia|].
    cbn [flat_map] in *. rewrite length_app in Hfuel.
    destruct (tokens_of_head text e Hwe) as (token & rest & Htok & Hnc).
    assert (0 < List.length (tokens_of text e))%nat as Hpos
      by (rewrite Htok; simpl; lia).
    cbn [parseList_loop].
    replace ((pre ++ (tokens_of text e ++ flat_map (tokens_of text) elems) ++ tail)
               !! List.length pre) with (Some token).
    2:{ symmetry. rewrite Htok. cbn [app]. apply list_lookup_middle. reflexivity. }
    rewrite Hnc. cbn [negb].
    rewrite <- (app_assoc (tokens_of text e)).
    rewrite (He Hwe pre _ fuel) by lia. cbn [rbind].
    rewrite (app_assoc pre), <- length_app.
    rewrite (IH Hback Hwr (pre ++ tokens_of text e) tail (acc ++ [e]) fuel Htail)
      by lia.
    rewrite <- (app_assoc acc), !length_app. cbn [app].
    f_equal. f_equal. lia.
Qed.

Lemma parseExpression_written (expr : Expression) : parsed_back text expr.
Proof.
  induction expr as [d|s|elems IH|f] using Expression_nested_ind;
    intros Hwr pre post fuel Hfuel.
  - destruct fuel as [|fuel]; [simpl in Hfuel; lia|]. cbn [tokens_of app parseExpression].
    rewrite list_lookup_middle by reflexivity. cbn [type value].
    simpl in Hwr. rewrite Hwr. simpl. rewrite Nat.add_1_r. reflexivity.
  - destruct fuel as [|fuel]; [simpl in Hfuel; lia|]. cbn [tokens_of app parseExpression].
    rewrite list_lookup_middle by reflexivity. cbn [type value].
    rewrite Nat.add_1_r. reflexivity.
  - apply written_ListOf in Hwr.
    cbn [tokens_of] in *. cbn [List.length] in Hfuel. rewrite length_app in Hfuel.
    cbn [List.length] in Hfuel.
    destruct fuel as [|[|fuel]]; [lia..|].
    cbn [parseExpression]. cbn [app].
    rewrite list_lookup_middle by reflexivity. cbn [type parseList].
    change (pre ++ mkToken PAREN_OPEN "(" ::
            (flat_map (tokens_of text) elems ++ [mkToken PAREN_CLOSE ")"]) ++ post)
      with (pre ++ [mkToken PAREN_OPEN "("] ++
            (flat_map (tokens_of text) elems ++ [mkToken PAREN_CLOSE ")"]) ++ post).
    rewrite (app_assoc pre), <- (app_assoc (flat_map (tokens_of text) elems)).
    replace (S (List.length pre)) with (List.length (pre ++ [mkToken PAREN_OPEN "("]))
      by (rewrite length_app; simpl; lia).
    rewrite (parseList_loop_written elems IH Hwr _ _ [] fuel) by (eauto; lia).
    cbn [rbind app].
    rewrite (app_assoc _ (flat_map (tokens_of text) elems)), <- length_app.
    rewrite list_lookup_middle by reflexivity.
    cbn [type TokenType_eqb]. do 2 f_equal.
    cbn [List.length]. rewrite !length_app. cbn [List.length]. lia.
  - contradiction.
Qed.

End RoundTrip.

(** *** What the parser returns *)

Lemma stod_throws (str : string) (e : exception) :
  stod str = Throw e -> e = invalid_argument "stod" \/ e = out_of_range "stod".
Proof.
  unfold stod. destruct (scan_decimal str) as [[[neg m] x]|]; [|intros [= <-]; auto].
  destruct (erange m x (decimal_to_double neg m x)); [intros [= <-]; auto | discriminate].
Qed.

Lemma rbind_Throw {A B : Type} (r : result A) (k : A -> result B) (e : exception) :
  rbind r k = Throw e -> r = Throw e \/ exists a, r = Ok a /\ k a = Throw e.
Proof.
  destruct r as [a|x| |]; simpl; try discriminate.
  - intros H. right. eauto.
  - intros [= <-]. left. reflexivity.
Qed.

(** The parser throws nothing but its four exceptions. *)
Lemma parser_throws (tokens : list Token) (fuel : nat) :
  (forall pos e, parseExpression fuel tokens pos = Throw e -> parse_error e) /\
  (forall pos e, parseList fuel tokens pos = Throw e -> parse_error e) /\
  (forall pos elems e, parseList_loop fuel tokens pos elems = Throw e -> parse_error e).
Proof.
  unfold parse_error.
  induction fuel as [|fuel (IHe & IHl & IHloop)]; [repeat split; discriminate|].
  split; [|split].
  - intros pos e. simpl. destruct (tokens !! pos) as [token|]; [|discriminate].
    destruct (type token).
    + apply IHl.
    + intros [= <-]. auto.
    + intros H. apply rbind_Throw in H as [H|(d & _ & H)]; [|discriminate].
      apply stod_throws in H. tauto.
    + discriminate.
  - intros pos e. simpl. intros H.
    apply rbind_Throw in H as [H|([elems p] & _ & H)]; [eapply IHloop, H|].
    destruct (tokens !! p) as [token|]; [|injection H as <-; auto].
    destruct (TokenType_eqb (type token) PAREN_CLOSE); [discriminate|].
    injection H as <-. auto.
  - intros pos elems e. simpl.
    destruct (tokens !! pos) as [token|]; [|discriminate].
    destruct (negb (TokenType_eqb (type token) PAREN_CLOSE)); [|discriminate].
    intros H. apply rbind_Throw in H as [H|([expr p] & _ & H)].
    + eapply IHe, H.
    + eapply IHloop, H.
Qed.

(** X5: from a cursor inside the token sequence, with three units of fuel
    for each token from the cursor on, [parseExpression] ends: either it
    returns a term and a cursor that has moved forward and not beyond the
    end of the sequence, or it throws one of the four exceptions of the
    parser.  It reads nothing out of bounds and does not loop. *)
Theorem parseExpression_ends (tokens : list Token) (fuel pos : nat) :
  (pos < List.length tokens)%nat ->
  (3 * (List.length tokens - pos) <= fuel)%nat ->
  (exists expr pos', parseExpression fuel tokens pos = Ok (expr, pos') /\
                     (pos < pos' <= List.length tokens)%nat) \/
  (exists e, parseExpression fuel tokens pos = Throw e /\ parse_error e).
Proof.
  intros Hpos Hfuel.
  destruct (parser_cursor tokens fuel) as (Hcur & _ & _).
  destruct (Hcur pos) as (Hends & Hmove).
  specialize (Hends Hpos Hfuel).
  pose proof (proj1 (parser_defined tokens fuel) pos Hpos) as Hdef.
  pose proof (proj1 (parser_throws tokens fuel) pos) as Hthrow.
  destruct (parseExpression fuel tokens pos) as [[expr pos']|e| |]; try congruence.
  - left. exists expr, pos'. split; [reflexivity | apply (Hmove expr pos' eq_refl)].
  - right. exists e. split; [reflexivity | apply Hthrow; reflexivity].
Qed.

Lemma parseExpression_ends_witness :
  (exists expr pos',
     parseExpression 9 [mkToken PAREN_OPEN "("; mkToken SYMBOL "f"; mkToken PAREN_OPEN "("]
                     0 = Ok (expr, pos') /\
     (0 < pos' <= List.length [mkToken PAREN_OPEN "("; mkToken SYMBOL "f";
                               mkToken PAREN_OPEN "("])%nat) \/
  (exists e,
     parseExpression 9 [mkToken PAREN_OPEN "("; mkToken SYMBOL "f"; mkToken PAREN_OPEN "("]
                     0 = Throw e /\ parse_error e).
Proof.
  apply (parseExpression_ends
           [mkToken PAREN_OPEN "("; mkToken SYMBOL "f"; mkToken PAREN_OPEN "("] 9 0);
    simpl; lia.
Defined.

(** X6: the parser inverts writing.  A term without Function, written out
    as tokens with texts that [std::stod] converts to its numbers, is
    parsed back as itself from its first token, whatever tokens come
    before and after; the cursor is left just after its last token, and
    what follows is not read.  Two units of fuel per token are enough. *)
Theorem parse_inverts_writing (text : float -> string) (expr : Expression)
    (pre post : list Token) (fuel : nat) :
  written text expr ->
  (2 * List.length (tokens_of text expr) <= fuel)%nat ->
  parseExpression fuel (pre ++ tokens_of text expr ++ post) (List.length pre) =
    Ok (expr, (List.length pre + List.length (tokens_of text expr))%nat).
Proof.
  intros Hwr Hfuel. apply parseExpression_written; assumption.
Qed.

Lemma parse_inverts_writing_witness :
  parseExpression 18
    ([mkToken SYMBOL "x"] ++
     tokens_of (fun _ => "2.5")
       (ListOf [Symbol "+"; Number 2.5; ListOf []; ListOf [Symbol "f"]]) ++
     [mkToken PAREN_CLOSE ")"]) (List.length [mkToken SYMBOL "x"]) =
  Ok (ListOf [Symbol "+"; Number 2.5; ListOf []; ListOf [Symbol "f"]],
      (List.length [mkToken SYMBOL "x"] +
       List.length (tokens_of (fun _ => "2.5")
         (ListOf [Symbol "+"; Number 2.5; ListOf []; ListOf [Symbol "f"]])))%nat).
Proof.
  apply (parse_inverts_writing (fun _ => "2.5")
           (ListOf [Symbol "+"; Number 2.5; ListOf []; ListOf [Symbol "f"]])
           [mkToken SYMBOL "x"] [mkToken PAREN_CLOSE ")"] 18).
  - simpl; repeat split; try (vm_compute; reflexivity).
  - simpl. lia.
Defined.

(** X7: a list that is opened and never closed makes the parser throw
    "Missing closing parenthesis": the elements are parsed, and the throw
    comes when the tokens run out. *)
Theorem unclosed_list_throws (text : float -> string) (elems : list Expression)
    (pre : list Token) (fuel : nat) :
  Forall (written text) elems ->
  (2 * List.length (flat_map (tokens_of text) elems) + 3 <= fuel)%nat ->
  parseExpression fuel
    (pre ++ mkToken PAREN_OPEN "(" :: flat_map (tokens_of text) elems)
    (List.length pre) =
  Throw (runtime_error "Missing closing parenthesis").
Proof.
  intros Hwr Hfuel. destruct fuel as [|[|fuel]]; [lia..|].
  cbn [parseExpression]. rewrite list_lookup_middle by reflexivity.
  cbn [type parseList].
  change (pre ++ mkToken PAREN_OPEN "(" :: flat_map (tokens_of text) elems)
    with (pre ++ [mkToken PAREN_OPEN "("] ++ flat_map (tokens_of text) elems).
  rewrite app_assoc, <- (app_nil_r (flat_map (tokens_of text) elems)).
  replace (S (List.length pre)) with (List.length (pre ++ [mkToken PAREN_OPEN "("]))
    by (rewrite length_app; simpl; lia).
  rewrite (parseList_loop_written text elems) by
    (auto; try lia; apply Forall_forall; intros e _; apply parseExpression_written).
  cbn [rbind]. rewrite app_nil_r, <- length_app.
  rewrite (proj2 (lookup_ge_None _ _)) by lia. reflexivity.
Qed.

Lemma unclosed_list_throws_witness :
  parseExpression 9
    ([] ++ mkToken PAREN_OPEN "(" ::
       flat_map (tokens_of (fun _ => "1")) [Symbol "+"; Number 1; Number 1])
    (List.length (@nil Token)) =
  Throw (runtime_error "Missing closing parenthesis").
Proof.
  apply (unclosed_list_throws (fun _ => "1") [Symbol "+"; Number 1; Number 1] [] 9).
  - repeat constructor; vm_compute; reflexivity.
  - simpl. lia.
Defined.

(** *** The lexer and the parser together *)

Lemma forallb_lookup {A : Type} (f : A -> bool) (l : list A) (i : nat) (x : A) :
  forallb f l = true -> l !! i = Some x -> f x = true.
Proof.
  revert i. induction l as [|y l IH]; intros i Hall Hi; [destruct i; discriminate|].
  simpl in Hall. apply andb_true_iff in Hall as [Hy Hall].
  destruct i as [|i]; simpl in Hi.
  - injection Hi as <-. exact Hy.
  - eapply IH; eassumption.
Qed.

(** A text that starts with a digit is converted or out of range. *)
Lemma stod_leading_digit (s : string) (what : string) :
  first_char isdigit s = true -> stod s <> Throw (invalid_argument what).
Proof.
  destruct s as [|c s]; simpl; [discriminate|]. intros Hc.
  pose proof (scan_decimal_leading_digit (String c "") s) as Hscan.
  rewrite append_cons, append_nil in Hscan.
  unfold stod.
  destruct (scan_decimal (String c s)) as [[[neg m] e]|].
  - destruct (erange m e (decimal_to_double neg m e)); discriminate.
  - exfalso. apply Hscan; [simpl; rewrite Hc; reflexivity | discriminate | reflexivity].
Qed.

(** On well-formed tokens the parser never throws [invalid_argument]. *)
Lemma parser_never_invalid (tokens : list Token) (what : string) (fuel : nat) :
  forallb token_ok tokens = true ->
  (forall pos, parseExpression fuel tokens pos <> Throw (invalid_argument what)) /\
  (forall pos, parseList fuel tokens pos <> Throw (invalid_argument what)) /\
  (forall pos elems, parseList_loop fuel tokens pos elems <> Throw (invalid_argument what)).
Proof.
  intros Hok.
  induction fuel as [|fuel (IHe & IHl & IHloop)]; [repeat split; discriminate|].
  split; [|split].
  - intros pos. simpl. destruct (tokens !! pos) as [token|] eqn:Htok; [|discriminate].
    pose proof (forallb_lookup _ _ _ _ Hok Htok) as Htoken. unfold token_ok in Htoken.
    destruct (type token); try discriminate.
    + apply IHl.
    + apply andb_true_iff in Htoken as [Hfirst _].
      intros H. apply rbind_Throw in H as [H|(d & _ & H)]; [|discriminate].
      exact (stod_leading_digit _ what Hfirst H).
  - intros pos. simpl. intros H.
    apply rbind_Throw in H as [H|([elems p] & _ & H)]; [exact (IHloop _ _ H)|].
    destruct (tokens !! p) as [token|]; [|discriminate].
    destruct (TokenType_eqb (type token) PAREN_CLOSE); discriminate.
  - intros pos elems. simpl.
    destruct (tokens !! pos) as [token|]; [|discriminate].
    destruct (negb (TokenType_eqb (type token) PAREN_CLOSE)); [|discriminate].
    intros H. apply rbind_Throw in H as [H|([expr p] & _ & H)].
    + exact (IHe _ H).
    + exact (IHloop _ _ H).
Qed.

(** X8: parsing a line never fails on a malformed number: the NUMBER
    tokens of the lexer start with a digit, so [std::stod] always finds a
    literal to convert, and [parse] never throws [invalid_argument]. *)
Theorem parse_never_invalid_argument (fuel : nat) (code what : string) :
  parse fuel code <> Throw (invalid_argument what).
Proof.
  unfold parse. intros H.
  apply rbind_Throw in H as [H|(tokens & Htok & H)].
  - unfold tokenize in H.
    destruct (tokenize_loop_outcomes code fuel 0 []) as [[out E]|[[c E]|E]];
      rewrite E in H; discriminate.
  - pose proof (tokenize_tokens_ok code fuel tokens Htok) as Hok.
    apply rbind_Throw in H as [H|([expr p] & _ & H)]; [|discriminate].
    exact (proj1 (parser_never_invalid tokens what fuel Hok) 0%nat H).
Qed.

Lemma strip_space_empty (s : string) : strip_space s = "" -> blank s = true.
Proof.
  induction s as [|c s IH]; simpl; [reflexivity|].
  destruct (isspace c); [exact IH | discriminate].
Qed.

Lemma parse_Undefined_blank (fuel : nat) (code : string) :
  parse fuel code = Undefined -> blank code = true.
Proof.
  unfold parse. intros H.
  destruct (tokenize fuel code) as [tokens| | |] eqn:Htok; try discriminate.
  - simpl in H.
    destruct tokens as [|token tokens].
    + apply strip_space_empty.
      rewrite <- (tokenize_texts code fuel [] Htok). reflexivity.
    + exfalso.
      pose proof (proj1 (parser_defined (token :: tokens) fuel) 0%nat
                    ltac:(simpl; lia)) as Hdef.
      destruct (parseExpression fuel (token :: tokens) 0) as [[expr p]| | |];
        simpl in H; congruence.
  - exfalso. exact (tokenize_loop_defined code fuel 0 [] Htok).
Qed.

(** X9: the out-of-bounds read of [parseExpression] happens on blank
    lines only: when [parse] ends in it, the line is white space or
    empty. *)
Theorem parse_out_of_bounds_only_blank (fuel : nat) (code : string) :
  parse fuel code = Undefined -> blank code = true.
Proof. apply parse_Undefined_blank. Qed.

Lemma parse_out_of_bounds_only_blank_witness : blank "   " = true.
Proof.
  apply (parse_out_of_bounds_only_blank 4 "   "). reflexivity.
Defined.

Lemma token_ok_nonempty (token : Token) :
  token_ok token = true -> (1 <= String.length (value token))%nat.
Proof.
  unfold token_ok. destruct (type token); intros H.
  - apply String.eqb_eq in H. rewrite H. simpl. lia.
  - apply String.eqb_eq in H. rewrite H. simpl. lia.
  - apply andb_true_iff in H as [H _]. destruct (value token); [discriminate|simpl; lia].
  - apply andb_true_iff in H as [H _]. destruct (value token); [discriminate|simpl; lia].
Qed.

Lemma texts_length (tokens : list Token) :
  forallb token_ok tokens = true ->
  (List.length tokens <= String.length (texts tokens))%nat.
Proof.
  induction tokens as [|token tokens IH]; simpl; [lia|]. intros H.
  apply andb_true_iff in H as [Htoken H].
  rewrite length_append. specialize (IH H).
  pose proof (token_ok_nonempty token Htoken). lia.
Qed.

Lemma strip_space_length (s : string) :
  (String.length (strip_space s) <= String.length s)%nat.
Proof.
  induction s as [|c s IH]; simpl; [lia|]. destruct (isspace c); simpl; lia.
Qed.

(** X10: on a line where no [-] stands directly before a digit, [parse]
    ends with three units of fuel per character and one more: it returns
    a term, throws, or, on a blank line, ends in the out-of-bounds
    read. *)
Theorem parse_terminates (fuel : nat) (code : string) :
  minus_digit_free code = true ->
  (3 * String.length code < fuel)%nat ->
  (exists expr, parse fuel code = Ok expr) \/
  (exists e, parse fuel code = Throw e) \/
  (parse fuel code = Undefined /\ blank code = true).
Proof.
  intros Hfree Hfuel.
  destruct (parse fuel code) as [expr|e| |] eqn:Hparse; eauto.
  - right. right. split; [reflexivity|].
    apply (parse_Undefined_blank fuel), Hparse.
  - exfalso. unfold parse in Hparse.
    destruct (tokenize_ends code fuel (minus_digit_free_spec code Hfree) ltac:(lia))
      as [[tokens Htok]|[e Htok]]; rewrite Htok in Hparse; [|discriminate].
    simpl in Hparse.
    pose proof (tokenize_tokens_ok code fuel tokens Htok) as Hok.
    pose proof (texts_length tokens Hok) as Hlen.
    rewrite (tokenize_texts code fuel tokens Htok) in Hlen.
    pose proof (strip_space_length code) as Hstrip.
    destruct tokens as [|token tokens].
    + destruct fuel as [|fuel]; [lia|]. discriminate.
    + destruct (parser_cursor (token :: tokens) fuel) as (Hcur & _ & _).
      pose proof (proj1 (Hcur 0%nat) ltac:(simpl; lia) ltac:(simpl in *; lia)) as Hends.
      destruct (parseExpression fuel (token :: tokens) 0) as [[expr p]| | |];
        simpl in Hparse; congruence.
Qed.

Lemma parse_terminates_witness :
  (exists expr, parse 25 "(+ 1 (f" = Ok expr) \/
  (exists e, parse 25 "(+ 1 (f" = Throw e) \/
  (parse 25 "(+ 1 (f" = Undefined /\ blank "(+ 1 (f" = true).
Proof.
  apply (parse_terminates 25 "(+ 1 (f"); [reflexivity | simpl; lia].
Defined.

(** ** The evaluator *)

(** How a sequence of two computations can end with a store. *)
Lemma final_heap_obind {A B : Type} (c : outcome A) (k : A -> Heap -> outcome B) h' :
  final_heap (obind c k) = Some h' ->
  (exists e, c = Threw e h') \/
  (exists a h1, c = Returned a h1 /\ final_heap (k a h1) = Some h').
Proof.
  destruct c as [a h1|e h1| |]; simpl; intros H; try discriminate.
  - right. eauto.
  - left. injection H as <-. eauto.
Qed.

Lemma final_heap_lift {A : Type} (r : result A) h h' :
  final_heap (lift r h) = Some h' -> h' = h.
Proof. destruct r; simpl; congruence. Qed.

Ltac same_store :=
  simpl; intros [= <-]; apply grows_only_refl.

Section Keeps.

Variable ev : Expression -> loc -> Heap -> outcome Expression.
Hypothesis ev_keeps : keeps ev.

Lemma keeps_Returned expr env h v h' :
  ev expr env h = Returned v h' -> grows_only env h h'.
Proof. intros E. apply (ev_keeps expr). rewrite E. reflexivity. Qed.

Lemma keeps_Threw expr env h e h' :
  ev expr env h = Threw e h' -> grows_only env h h'.
Proof. intros E. apply (ev_keeps expr). rewrite E. reflexivity. Qed.

Lemma eval_args_keeps elems env h h' :
  final_heap (eval_args ev elems env h) = Some h' -> grows_only env h h'.
Proof.
  revert h. induction elems as [|e rest IH]; intros h; simpl.
  - intros [= <-]. apply grows_only_refl.
  - intros H. apply final_heap_obind in H as [[x E]|(v & h1 & E & H)].
    + eapply keeps_Threw, E.
    + eapply grows_only_trans; [eapply keeps_Returned, E|].
      apply final_heap_obind in H as [[x E2]|(args & h2 & E2 & H)].
      * apply IH. rewrite E2. reflexivity.
      * simpl in H. injection H as <-. apply IH. rewrite E2. reflexivity.
Qed.

(** A call leaves every frame that existed before it as it was: the body
    runs in a frame of its own. *)
Lemma invoke_appends func args h h' :
  final_heap (invoke ev func args h) = Some h' -> exists k, h' = h ++ k.
Proof.
  destruct func as [params body cenv|b]; simpl.
  - destruct (negb (List.length args =? List.length params)%nat).
    + simpl. intros [= <-]. exists []. symmetry. apply app_nil_r.
    + rewrite bind_params_last. intros H.
      apply ev_keeps in H. eapply grows_only_fresh, H.
  - intros H. apply final_heap_lift in H as ->.
    exists []. symmetry. apply app_nil_r.
Qed.

Lemma eval_body_keeps : keeps (eval_body ev).
Proof.
  intros expr env h h'. unfold eval_body.
  destruct expr as [d|s|[|first rest]|f]; try same_store.
  { destruct (find h env s); same_store. }
  destruct first as [d|sym|l|f]; try same_store.
  destruct (String.eqb sym "define").
  { destruct rest as [|[d|x|l|f] [|e [|? ?]]]; try same_store.
    intros H. apply final_heap_obind in H as [[x0 E]|(v & h1 & E & H)].
    - eapply keeps_Threw, E.
    - simpl in H. injection H as <-.
      eapply grows_only_trans; [eapply keeps_Returned, E | apply grows_only_set]. }
  destruct (String.eqb sym "lambda").
  { destruct rest as [|[d|x|l|f] [|e [|? ?]]]; try same_store.
    destruct (lambda_params l); same_store. }
  destruct (String.eqb sym "if").
  { destruct rest as [|c [|t [|e [|? ?]]]]; try same_store.
    intros H. apply final_heap_obind in H as [[x0 E]|(v & h1 & E & H)].
    - eapply keeps_Threw, E.
    - eapply grows_only_trans; [eapply keeps_Returned, E|].
      destruct (truthy v); eapply ev_keeps, H. }
  intros H. apply final_heap_obind in H as [[x0 E]|(v & h1 & E & H)].
  - eapply keeps_Threw, E.
  - eapply grows_only_trans; [eapply keeps_Returned, E|].
    destruct v as [d|s|l|func]; try (revert H; same_store).
    apply final_heap_obind in H as [[x0 E2]|(args & h2 & E2 & H)].
    + apply (eval_args_keeps rest). rewrite E2. reflexivity.
    + eapply grows_only_trans.
      * apply (eval_args_keeps rest). rewrite E2. reflexivity.
      * apply invoke_appends in H as [k ->]. apply app_grows_only.
Qed.

End Keeps.

(** Whatever the outcome, evaluation in [env] loses no frame, touches no
    frame that existed but [env], and in [env] keeps the [outer] link and
    every name. *)
Lemma eval_keeps (fuel : nat) : keeps (eval fuel).
Proof.
  induction fuel as [|fuel IH]; [intros expr env h h'; discriminate|].
  apply eval_body_keeps, IH.
Qed.

Lemma invoke_closure (ev : Expression -> loc -> Heap -> outcome Expression)
    (params : list string) (body : Expression) (cenv : loc)
    (args : list Expression) (h : Heap) :
  invoke ev (Closure params body cenv) args h =
    if (List.length args =? List.length params)%nat
    then ev body (List.length h)
           (h ++ [mkEnvironment (bindings ∅ params args) (Some cenv)])
    else Threw (runtime_error "Incorrect number of arguments") h.
Proof.
  simpl. destruct (List.length args =? List.length params)%nat; [|reflexivity].
  simpl. rewrite bind_params_last. reflexivity.
Qed.

(** *** More fuel does not change an outcome *)

Lemma obind_refines {A B : Type} (c c' : outcome A) (k k' : A -> Heap -> outcome B) :
  (c <> Unfinished -> c' = c) ->
  (forall a h, k a h <> Unfinished -> k' a h = k a h) ->
  obind c k <> Unfinished -> obind c' k' = obind c k.
Proof.
  intros Hc Hk H. destruct c as [a h|e h| |]; simpl in *;
    try (rewrite Hc by discriminate; simpl; auto); congruence.
Qed.

Section Refines.

Variables ev ev' : Expression -> loc -> Heap -> outcome Expression.
Hypothesis ev_refines : refines ev ev'.

Lemma eval_args_refines elems env h :
  eval_args ev elems env h <> Unfinished ->
  eval_args ev' elems env h = eval_args ev elems env h.
Proof.
  revert h. induction elems as [|e rest IH]; intros h; simpl; [reflexivity|].
  apply obind_refines; [apply ev_refines|].
  intros v h1. apply obind_refines; [apply IH | reflexivity].
Qed.

Lemma invoke_refines func args h :
  invoke ev func args h <> Unfinished ->
  invoke ev' func args h = invoke ev func args h.
Proof.
  destruct func as [params body cenv|b]; simpl; [|reflexivity].
  destruct (negb (List.length args =? List.length params)%nat); [reflexivity|].
  apply ev_refines.
Qed.

Lemma eval_body_refines : refines (eval_body ev) (eval_body ev').
Proof.
  intros expr env h. unfold eval_body.
  destruct expr as [d|s|[|first rest]|f]; try reflexivity.
  destruct first as [d|sym|l|f]; try reflexivity.
  destruct (String.eqb sym "define").
  { destruct rest as [|[d|x|l|f] [|e [|? ?]]]; try reflexivity.
    apply obind_refines; [apply ev_refines | reflexivity]. }
  destruct (String.eqb sym "lambda"); [reflexivity|].
  destruct (String.eqb sym "if").
  { destruct rest as [|c [|t [|e [|? ?]]]]; try reflexivity.
    apply obind_refines; [apply ev_refines|].
    intros v h1. destruct (truthy v); apply ev_refines. }
  apply obind_refines; [apply ev_refines|].
  intros [d|s|l|func] h1; try reflexivity.
  apply obind_refines; [apply eval_args_refines|].
  intros args h2. apply invoke_refines.
Qed.

End Refines.

Lemma eval_S_refines (fuel : nat) : refines (eval fuel) (eval (S fuel)).
Proof.
  induction fuel as [|fuel IH]; [intros expr env h H; simpl in H; congruence|].
  apply (eval_body_refines _ _ IH).
Qed.

(** An outcome reached with some fuel is the outcome with any more fuel. *)
Lemma eval_more_fuel (fuel fuel' : nat) (expr : Expression) (env : loc) (h : Heap) :
  (fuel <= fuel')%nat ->
  eval fuel expr env h <> Unfinished ->
  eval fuel' expr env h = eval fuel expr env h.
Proof.
  induction 1 as [|fuel' Hle IH]; [reflexivity|].
  intros H. rewrite <- (IH H). apply eval_S_refines. rewrite (IH H). exact H.
Qed.

(** So the outcome of an evaluation does not depend on the fuel that was
    enough for it. *)
Lemma eval_deterministic (fuel1 fuel2 : nat) (expr : Expression) (env : loc) (h : Heap) :
  eval fuel1 expr env h <> Unfinished ->
  eval fuel2 expr env h <> Unfinished ->
  eval fuel1 expr env h = eval fuel2 expr env h.
Proof.
  intros H1 H2. destruct (Nat.le_ge_cases fuel1 fuel2) as [Hle|Hle].
  - symmetry. apply eval_more_fuel; assumption.
  - apply eval_more_fuel; assumption.
Qed.

(** *** Reachable stores *)

Lemma value_ok_mono (n m : nat) (v : Expression) :
  (n <= m)%nat -> value_ok n v -> value_ok m v.
Proof.
  intros Hle. destruct v as [d|s|l|[params body cenv|b]]; simpl; auto. lia.
Qed.

Lemma store_ok_set (h : Heap) (env : loc) (x : string) (v : Expression) :
  store_ok h -> value_ok (List.length h) v -> store_ok (set h env x v).
Proof.
  intros [Hch Hval] Hv. unfold set.
  destruct (h !! env) as [fr0|] eqn:Hfr0; [|split; assumption].
  split.
  - intros l fr o Hl Ho.
    destruct (decide (l = env)) as [->|Hne].
    + rewrite list_lookup_insert_eq in Hl by (eapply lookup_lt_Some, Hfr0).
      injection Hl as <-. simpl in Ho. eapply Hch; eassumption.
    + rewrite list_lookup_insert_ne in Hl by congruence. eapply Hch; eassumption.
  - intros l fr y w Hl Hy. rewrite length_insert.
    destruct (decide (l = env)) as [->|Hne].
    + rewrite list_lookup_insert_eq in Hl by (eapply lookup_lt_Some, Hfr0).
      injection Hl as <-. simpl in Hy.
      destruct (decide (x = y)) as [->|Hxy].
      * rewrite lookup_insert_eq in Hy. injection Hy as <-. exact Hv.
      * rewrite lookup_insert_ne in Hy by exact Hxy. eapply Hval; eassumption.
    + rewrite list_lookup_insert_ne in Hl by congruence. eapply Hval; eassumption.
Qed.

Lemma bindings_values (P : Expression -> Prop) (m : gmap string Expression)
    (params : list string) (args : list Expression) :
  (forall x v, m !! x = Some v -> P v) -> Forall P args ->
  forall x v, bindings m params args !! x = Some v -> P v.
Proof.
  revert m args. induction params as [|p params IH]; intros m [|a args] Hm Hargs; simpl; auto.
  apply Forall_cons in Hargs as [Ha Hargs].
  apply IH; [|exact Hargs].
  intros x v Hx. destruct (decide (p = x)) as [->|Hne].
  - rewrite lookup_insert_eq in Hx. injection Hx as <-. exact Ha.
  - rewrite lookup_insert_ne in Hx by exact Hne. eapply Hm, Hx.
Qed.

(** The frame of a call fits the store it is added to. *)
Lemma store_ok_call_frame (h : Heap) (params : list string)
    (args : list Expression) (cenv : loc) :
  store_ok h -> (cenv < List.length h)%nat ->
  Forall (value_ok (List.length h)) args ->
  store_ok (h ++ [mkEnvironment (bindings ∅ params args) (Some cenv)]).
Proof.
  intros [Hch Hval] Hc Hargs. split.
  - intros l fr o Hl Ho.
    destruct (decide (l < List.length h)%nat) as [Hlt|Hge].
    + rewrite lookup_app_l in Hl by exact Hlt. eapply Hch; eassumption.
    + rewrite lookup_app_r in Hl by lia.
      destruct (l - List.length h)%nat as [|n] eqn:Hn; [|destruct n; discriminate].
      injection Hl as <-. injection Ho as <-. lia.
  - intros l fr x v Hl Hx. rewrite length_app. simpl.
    apply (value_ok_mono (List.length h)); [lia|].
    destruct (decide (l < List.length h)%nat) as [Hlt|Hge].
    + rewrite lookup_app_l in Hl by exact Hlt. eapply Hval; eassumption.
    + rewrite lookup_app_r in Hl by lia.
      destruct (l - List.length h)%nat as [|n] eqn:Hn; [|destruct n; discriminate].
      injection Hl as <-. simpl in Hx.
      eapply (bindings_values _ ∅ params args); [|exact Hargs|exact Hx].
      intros y w Hy. rewrite lookup_empty in Hy. discriminate.
Qed.

Lemma find_from_value_ok (h : Heap) (n : nat) (env : loc) (x : string) (v : Expression) :
  store_ok h -> find_from n h env x = Some v -> value_ok (List.length h) v.
Proof.
  intros [_ Hval]. revert env. induction n as [|n IH]; intros env; simpl; [discriminate|].
  destruct (h !! env) as [fr|] eqn:Hfr; [|discriminate].
  destruct (vars fr !! x) as [w|] eqn:Hx.
  - intros [= <-]. eapply Hval; eassumption.
  - destruct (outer fr) as [o|]; [apply IH | discriminate].
Qed.

Lemma plus_loop_ends (args : list Expression) (sum : float) :
  (exists d, plus_loop args sum = Ok d) \/ (exists e, plus_loop args sum = Throw e).
Proof.
  revert sum. induction args as [|[d|s|l|f] args IH]; intros sum; simpl; eauto.
Qed.

Lemma minus_loop_ends (args : list Expression) (acc : float) :
  (exists d, minus_loop args acc = Ok d) \/ (exists e, minus_loop args acc = Throw e).
Proof.
  revert acc. induction args as [|[d|s|l|f] args IH]; intros acc; simpl; eauto.
Qed.

(** A built-in returns a Number or throws. *)
Lemma call_builtin_number (b : BuiltinFunc) (args : list Expression) :
  (exists d, call_builtin b args = Ok (Number d)) \/
  (exists e, call_builtin b args = Throw e).
Proof.
  destruct b; simpl.
  - unfold plus. destruct (plus_loop_ends args 0) as [[d ->]|[e ->]]; simpl; eauto.
  - unfold minus. destruct args as [|[d|s|l|f] rest]; eauto.
    destruct rest as [|a rest]; eauto.
    destruct (minus_loop_ends (a :: rest) d) as [[r ->]|[e ->]]; simpl; eauto.
Qed.

Section Sound.

Variable ev : Expression -> loc -> Heap -> outcome Expression.
Hypothesis ev_keeps : keeps ev.
Hypothesis ev_sound : sound ev.

Lemma sound_Returned expr env h v h' :
  store_ok h -> (env < List.length h)%nat -> ev expr env h = Returned v h' ->
  store_ok h' /\ value_ok (List.length h') v /\ (List.length h <= List.length h')%nat.
Proof.
  intros Hok Henv E. pose proof (ev_sound expr env h Hok Henv) as H.
  rewrite E in H. destruct H as [H1 H2].
  pose proof (keeps_Returned ev ev_keeps _ _ _ _ _ E) as (Hlen & _). auto.
Qed.

Lemma sound_Threw expr env h e h' :
  store_ok h -> (env < List.length h)%nat -> ev expr env h = Threw e h' -> store_ok h'.
Proof.
  intros Hok Henv E. pose proof (ev_sound expr env h Hok Henv) as H.
  rewrite E in H. exact H.
Qed.

Lemma eval_args_sound elems env h :
  store_ok h -> (env < List.length h)%nat ->
  match eval_args ev elems env h with
  | Returned args h' =>
      store_ok h' /\ Forall (value_ok (List.length h')) args /\
      (List.length h <= List.length h')%nat
  | Threw _ h' => store_ok h'
  | Faulted | Unfinished => True
  end.
Proof.
  revert h. induction elems as [|e rest IH]; intros h Hok Henv; simpl.
  - auto.
  - destruct (ev e env h) as [v h1|x h1| |] eqn:E; simpl; auto.
    + destruct (sound_Returned _ _ _ _ _ Hok Henv E) as (Hok1 & Hv & Hlen1).
      specialize (IH h1 Hok1 ltac:(lia)).
      destruct (eval_args ev rest env h1) as [args h2|x h2| |]; simpl; auto.
      destruct IH as (Hok2 & Hargs & Hlen2).
      split; [exact Hok2|]. split; [|lia].
      apply Forall_cons. split; [|exact Hargs].
      eapply value_ok_mono; [|exact Hv]. lia.
    + eapply sound_Threw; eassumption.
Qed.

Lemma invoke_sound func args h :
  store_ok h -> value_ok (List.length h) (Func func) ->
  Forall (value_ok (List.length h)) args ->
  match invoke ev func args h with
  | Returned v h' => store_ok h' /\ value_ok (List.length h') v
  | Threw _ h' => store_ok h'
  | Faulted | Unfinished => True
  end.
Proof.
  intros Hok Hf Hargs. destruct func as [params body cenv|b].
  - rewrite invoke_closure.
    destruct (List.length args =? List.length params)%nat; [|exact Hok].
    apply ev_sound.
    + apply store_ok_call_frame; assumption.
    + rewrite length_app. simpl. lia.
  - simpl. destruct (call_builtin_number b args) as [[d ->]|[e ->]]; simpl; auto.
Qed.

Lemma eval_body_sound : sound (eval_body ev).
Proof.
  intros expr env h Hok Henv. unfold eval_body.
  destruct expr as [d|s|[|first rest]|f]; simpl; auto.
  { destruct (find h env s) as [v|] eqn:Hf; [|exact Hok].
    split; [exact Hok|]. eapply find_from_value_ok; eassumption. }
  destruct first as [d|sym|l|f]; auto.
  destruct (String.eqb sym "define").
  { destruct rest as [|[d|x|l|f] [|e [|? ?]]]; auto.
    destruct (ev e env h) as [v h1|x0 h1| |] eqn:E; simpl; auto.
    - destruct (sound_Returned _ _ _ _ _ Hok Henv E) as (Hok1 & Hv & Hlen1).
      split; [apply store_ok_set; assumption|]. rewrite set_length. exact Hv.
    - eapply sound_Threw; eassumption. }
  destruct (String.eqb sym "lambda").
  { destruct rest as [|[d|x|l|f] [|e [|? ?]]]; auto.
    destruct (lambda_params l); simpl; auto. }
  destruct (String.eqb sym "if").
  { destruct rest as [|c [|t [|e [|? ?]]]]; auto.
    destruct (ev c env h) as [v h1|x0 h1| |] eqn:E; simpl; auto.
    - destruct (sound_Returned _ _ _ _ _ Hok Henv E) as (Hok1 & Hv & Hlen1).
      destruct (truthy v); apply ev_sound; (assumption || lia).
    - eapply sound_Threw; eassumption. }
  destruct (ev (Symbol sym) env h) as [v h1|x0 h1| |] eqn:E; simpl; auto.
  - destruct (sound_Returned _ _ _ _ _ Hok Henv E) as (Hok1 & Hv & Hlen1).
    destruct v as [d|s|l|func]; auto.
    pose proof (eval_args_sound rest env h1 Hok1 ltac:(lia)) as Hargs.
    destruct (eval_args ev rest env h1) as [args h2|x0 h2| |]; simpl; auto.
    destruct Hargs as (Hok2 & Hargs & Hlen2).
    apply invoke_sound; [exact Hok2| |exact Hargs].
    eapply value_ok_mono; [|exact Hv]. lia.
  - eapply sound_Threw; eassumption.
Qed.

End Sound.

Lemma eval_sound (fuel : nat) : sound (eval fuel).
Proof.
  induction fuel as [|fuel IH]; [intros expr env h _ _; exact I|].
  apply eval_body_sound; [apply eval_keeps | exact IH].
Qed.

Lemma initial_heap_ok : store_ok initial_heap /\ (globalEnv < List.length initial_heap)%nat.
Proof.
  split; [|vm_compute; lia].
  unfold initial_heap, startup, addBuiltins. simpl snd.
  repeat apply store_ok_set; try exact I.
  split.
  - intros l fr o Hl Ho. destruct l as [|l]; [|destruct l; discriminate].
    injection Hl as <-. discriminate.
  - intros l fr x v Hl Hx. destruct l as [|l]; [|destruct l; discriminate].
    injection Hl as <-. simpl in Hx. rewrite lookup_empty in Hx. discriminate.
Qed.

(** Whatever lines [main] has read, the store it holds has chains that
    end and closures that captured frames of the store. *)
Lemma read_eval_store_ok (fuel : nat) (line : string) (h : Heap) :
  store_ok h -> (globalEnv < List.length h)%nat ->
  forall h', final_heap (read_eval fuel line h) = Some h' ->
  store_ok h' /\ (globalEnv < List.length h')%nat.
Proof.
  intros Hok Hg h'. unfold read_eval.
  destruct (parse fuel line) as [expr|e| |]; simpl; try discriminate.
  - pose proof (eval_sound fuel expr globalEnv h Hok Hg) as Hs.
    intros H. pose proof (eval_keeps fuel expr globalEnv h h' H) as (Hlen & _).
    destruct (eval fuel expr globalEnv h) as [v h1|x h1| |]; simpl in H;
      try discriminate; injection H as <-; split; try lia; tauto.
  - intros [= <-]. auto.
Qed.

(** *** Failing evaluations and the store *)

Lemma appends_refl (h : Heap) : exists k, h = h ++ k.
Proof. exists []. symmetry. apply app_nil_r. Qed.

Lemma same_appends (h h' : Heap) : Some h = Some h' -> exists k, h' = h ++ k.
Proof. intros [= <-]. apply appends_refl. Qed.

Lemma appends_trans (h1 h2 h3 : Heap) :
  (exists k, h2 = h1 ++ k) -> (exists k, h3 = h2 ++ k) -> exists k, h3 = h1 ++ k.
Proof. intros [k1 ->] [k2 ->]. exists (k1 ++ k2). symmetry. apply app_assoc. Qed.

Section Appends.

Variable ev : Expression -> loc -> Heap -> outcome Expression.
Hypothesis ev_keeps : keeps ev.
Hypothesis ev_appends : appends ev.

Lemma eval_args_appends elems env h h' :
  forallb no_define elems = true ->
  final_heap (eval_args ev elems env h) = Some h' -> exists k, h' = h ++ k.
Proof.
  revert h. induction elems as [|e rest IH]; intros h Hnd; simpl.
  - intros [= <-]. apply appends_refl.
  - simpl in Hnd. apply andb_true_iff in Hnd as [He Hrest].
    intros H. apply final_heap_obind in H as [[x E]|(v & h1 & E & H)].
    + apply (ev_appends e env); [exact He | rewrite E; reflexivity].
    + apply (appends_trans h h1).
      { apply (ev_appends e env); [exact He | rewrite E; reflexivity]. }
      apply final_heap_obind in H as [[x E2]|(args & h2 & E2 & H)].
      * apply IH; [exact Hrest | rewrite E2; reflexivity].
      * simpl in H. injection H as <-.
        apply IH; [exact Hrest | rewrite E2; reflexivity].
Qed.

Lemma eval_body_appends : appends (eval_body ev).
Proof.
  intros expr env h h' Hnd. unfold eval_body.
  pose proof (same_appends h h') as Hsame.
  destruct expr as [d|s|[|first rest]|f]; try exact Hsame.
  { destruct (find h env s); exact Hsame. }
  destruct first as [d|sym|l|f]; try exact Hsame.
  simpl in Hnd. apply andb_true_iff in Hnd as [Hhead Hrest].
  apply negb_true_iff in Hhead. rewrite Hhead.
  destruct (String.eqb sym "lambda").
  { destruct rest as [|[d|x|l|f] [|e [|? ?]]]; try exact Hsame.
    destruct (lambda_params l); simpl; (exact Hsame || discriminate). }
  destruct (String.eqb sym "if").
  { destruct rest as [|c [|t [|e [|? ?]]]]; try exact Hsame.
    simpl in Hrest.
    apply andb_true_iff in Hrest as [Hc Hrest].
    apply andb_true_iff in Hrest as [Ht Hrest].
    apply andb_true_iff in Hrest as [He _].
    intros H. apply final_heap_obind in H as [[x0 E]|(v & h1 & E & H)].
    - apply (ev_appends c env); [exact Hc | rewrite E; reflexivity].
    - apply (appends_trans h h1).
      { apply (ev_appends c env); [exact Hc | rewrite E; reflexivity]. }
      destruct (truthy v); [apply (ev_appends t env) | apply (ev_appends e env)];
        assumption. }
  intros H. apply final_heap_obind in H as [[x0 E]|(v & h1 & E & H)].
  - apply (ev_appends (Symbol sym) env); [reflexivity | rewrite E; reflexivity].
  - apply (appends_trans h h1).
    { apply (ev_appends (Symbol sym) env); [reflexivity | rewrite E; reflexivity]. }
    destruct v as [d|s|l|func]; try (apply same_appends, H).
    apply final_heap_obind in H as [[x0 E2]|(args & h2 & E2 & H)].
    + apply (eval_args_appends rest env); [exact Hrest | rewrite E2; reflexivity].
    + apply (appends_trans h1 h2).
      * apply (eval_args_appends rest env); [exact Hrest | rewrite E2; reflexivity].
      * eapply invoke_appends; [exact ev_keeps | exact H].
Qed.

End Appends.

(** Evaluating a term without [define] only adds frames to the store. *)
Lemma eval_appends (fuel : nat) : appends (eval fuel).
Proof.
  induction fuel as [|fuel IH]; [intros expr env h h' _; discriminate|].
  apply eval_body_appends; [apply eval_keeps | exact IH].
Qed.

Lemma failing_eval_globals (fuel : nat) (expr : Expression) (env : loc)
    (h h' : Heap) (e : exception) :
  eval fuel expr env h = Threw e h' -> no_define expr = true ->
  exists k, h' = h ++ k.
Proof.
  intros E Hnd. apply (eval_appends fuel expr env); [exact Hnd|].
  rewrite E. reflexivity.
Qed.

(** C3 (as the code has it): nothing is rolled back when an evaluation
    fails, so what holds of the store a failing evaluation leaves is what
    holds of any evaluation: no frame is lost, no frame that existed is
    touched except the frame of the evaluation, and that frame keeps its
    [outer] link and all its names.  When the failing term has no [define]
    form, every frame that existed is left exactly as it was, and every
    name is found from the environment as before. *)
Theorem failing_eval_store (fuel : nat) (expr : Expression) (env : loc)
    (h h' : Heap) (e : exception) :
  eval fuel expr env h = Threw e h' ->
  grows_only env h h' /\
  (no_define expr = true ->
   (exists k, h' = h ++ k) /\
   (chains_ok h -> (env < List.length h)%nat ->
    forall x, find h' env x = find h env x)).
Proof.
  intros E. split.
  - apply (eval_keeps fuel expr). rewrite E. reflexivity.
  - intros Hnd.
    destruct (failing_eval_globals fuel expr env h h' e E Hnd) as [k ->].
    split; [eauto|].
    intros Hok Henv x. apply find_app; assumption.
Qed.

Lemma failing_eval_store_witness :
  grows_only globalEnv store_with_f
    (store_with_f ++ [mkEnvironment (bindings ∅ ["x"] [Number 1]) (Some globalEnv)]) /\
  (no_define (ListOf [Symbol "f"; ListOf [Symbol "f"; Number 1]; ListOf [Symbol "foo"]])
     = true ->
   (exists k,
      store_with_f ++ [mkEnvironment (bindings ∅ ["x"] [Number 1]) (Some globalEnv)] =
      store_with_f ++ k) /\
   (chains_ok store_with_f -> (globalEnv < List.length store_with_f)%nat ->
    forall x,
      find (store_with_f ++
              [mkEnvironment (bindings ∅ ["x"] [Number 1]) (Some globalEnv)])
           globalEnv x =
      find store_with_f globalEnv x)).
Proof.
  apply (failing_eval_store 4
           (ListOf [Symbol "f"; ListOf [Symbol "f"; Number 1]; ListOf [Symbol "foo"]])
           globalEnv store_with_f _ (runtime_error "Undefined symbol: foo")).
  vm_compute. reflexivity.
Defined.

(** The same for one turn of the loop of [main]: a line that fails, in
    lexing, parsing or evaluation, and whose term has no [define] form
    leaves every global as it was. *)
Lemma failing_cycle_globals (fuel : nat) (line : string) (h h' : Heap) (e : exception) :
  store_ok h -> (globalEnv < List.length h)%nat ->
  read_eval fuel line h = Threw e h' ->
  (forall expr, parse fuel line = Ok expr -> no_define expr = true) ->
  forall x, find h' globalEnv x = find h globalEnv x.
Proof.
  intros [Hch _] Hg E Hnd x. unfold read_eval in E.
  destruct (parse fuel line) as [expr|e0| |]; try discriminate.
  - destruct (failing_eval_globals fuel expr globalEnv h h' e E (Hnd expr eq_refl)) as [k ->].
    apply find_app; assumption.
  - injection E as _ <-. reflexivity.
Qed.

(** C3 (as stated, refuted): the line [(+ (define x 1) (foo))] fails on
    the unbound [foo], after its first argument has bound [x]; the global
    frame it leaves has [x], which it did not have before. *)
Lemma failing_cycle_keeps_binding :
  read_eval 20 "(+ (define x 1) (foo))" initial_heap =
    Threw (runtime_error "Undefined symbol: foo")
          (set initial_heap globalEnv "x" (Number 1)) /\
  find initial_heap globalEnv "x" = None /\
  find (set initial_heap globalEnv "x" (Number 1)) globalEnv "x" = Some (Number 1).
Proof. repeat split; vm_compute; reflexivity. Qed.

(** *** The special forms *)

(** C7: [define] demands a symbol and one more element, else it throws
    "Invalid define syntax"; it evaluates that element in the current
    environment, writes the value under the name into the current frame
    and no other, and returns the value; [find] from that frame then
    yields the value.  A failure of the element is the failure of the
    form, with nothing written by the form.  On [(define y (+ 2 3))] the
    form returns 5 and [y] is 5 afterwards. *)
Theorem define_binds_current_frame :
  (forall fuel rest env h,
     define_shape rest = false ->
     eval (S fuel) (ListOf (Symbol "define" :: rest)) env h =
       Threw (runtime_error "Invalid define syntax") h) /\
  (forall fuel x e env h v h1,
     (env < List.length h)%nat ->
     eval fuel e env h = Returned v h1 ->
     eval (S fuel) (ListOf [Symbol "define"; Symbol x; e]) env h =
       Returned v (set h1 env x v) /\
     find (set h1 env x v) env x = Some v /\
     (forall l, l <> env -> set h1 env x v !! l = h1 !! l)) /\
  (forall fuel x e env h err h1,
     eval fuel e env h = Threw err h1 ->
     eval (S fuel) (ListOf [Symbol "define"; Symbol x; e]) env h = Threw err h1) /\
  read_eval 20 "(define y (+ 2 3))" initial_heap =
    Returned (Number 5) (set initial_heap globalEnv "y" (Number 5)) /\
  read_eval 20 "y" (set initial_heap globalEnv "y" (Number 5)) =
    Returned (Number 5) (set initial_heap globalEnv "y" (Number 5)).
Proof.
  split; [|split; [|split; [|split]]].
  - intros fuel rest env h Hshape. simpl.
    destruct rest as [|[d|x|l|f] [|e [|? ?]]]; try reflexivity. discriminate.
  - intros fuel x e env h v h1 Hlt E. split; [|split].
    + simpl. rewrite E. reflexivity.
    + apply find_set_eq.
      pose proof (keeps_Returned _ (eval_keeps fuel) _ _ _ _ _ E) as (Hlen & _).
      lia.
    + intros l Hne. apply set_lookup_ne, Hne.
  - intros fuel x e env h err h1 E. simpl. rewrite E. reflexivity.
  - vm_compute. reflexivity.
  - vm_compute. reflexivity.
Qed.

Lemma define_binds_current_frame_witness :
  eval 3 (ListOf [Symbol "define"; Symbol "y"; ListOf [Symbol "+"; Number 2; Number 3]])
       globalEnv initial_heap =
    Returned (Number 5) (set initial_heap globalEnv "y" (Number 5)) /\
  find (set initial_heap globalEnv "y" (Number 5)) globalEnv "y" = Some (Number 5) /\
  (forall l, l <> globalEnv ->
     set initial_heap globalEnv "y" (Number 5) !! l = initial_heap !! l).
Proof.
  apply (proj1 (proj2 define_binds_current_frame)
           2 "y" (ListOf [Symbol "+"; Number 2; Number 3]) globalEnv initial_heap).
  - vm_compute. lia.
  - vm_compute. reflexivity.
Defined.

(** C4: an [if] of four elements evaluates its condition first; when the
    value is a Number other than zero the consequent is evaluated and its
    outcome is the form's, in every other case (zero, a Symbol, a List, a
    Function) the alternative's is.  [(if 0 1 2)] is 2, [(if 1 1 2)] is 1
    and [(if -1 1 2)] is 1. *)
Theorem if_takes_nonzero_number_as_true :
  (forall fuel c t e env h v h1,
     eval fuel c env h = Returned v h1 ->
     eval (S fuel) (ListOf [Symbol "if"; c; t; e]) env h =
       if truthy v then eval fuel t env h1 else eval fuel e env h1) /\
  (forall fuel c t e env h err h1,
     eval fuel c env h = Threw err h1 ->
     eval (S fuel) (ListOf [Symbol "if"; c; t; e]) env h = Threw err h1) /\
  (forall v, truthy v = true <-> exists d, v = Number d /\ (d =? 0)%float = false) /\
  (forall fuel env h,
     eval (S (S fuel)) (ListOf [Symbol "if"; Number 0; Number 1; Number 2]) env h =
       Returned (Number 2) h /\
     eval (S (S fuel)) (ListOf [Symbol "if"; Number 1; Number 1; Number 2]) env h =
       Returned (Number 1) h /\
     eval (S (S fuel)) (ListOf [Symbol "if"; Number (-1); Number 1; Number 2]) env h =
       Returned (Number 1) h).
Proof.
  split; [|split; [|split]].
  - intros fuel c t e env h v h1 E. simpl. rewrite E. reflexivity.
  - intros fuel c t e env h err h1 E. simpl. rewrite E. reflexivity.
  - intros v. split.
    + destruct v as [d|s|l|f]; simpl; try discriminate.
      intros H. exists d. split; [reflexivity|]. apply negb_true_iff, H.
    + intros (d & -> & H). simpl. rewrite H. reflexivity.
  - intros fuel env h. repeat split.
Qed.

Lemma if_takes_nonzero_number_as_true_witness :
  eval 2 (ListOf [Symbol "if"; Symbol "+"; Number 1; Number 2]) globalEnv initial_heap =
    if truthy (Func (Builtin builtin_plus))
    then eval 1 (Number 1) globalEnv initial_heap
    else eval 1 (Number 2) globalEnv initial_heap.
Proof.
  apply (proj1 if_takes_nonzero_number_as_true
           1 (Symbol "+") (Number 1) (Number 2) globalEnv initial_heap
           (Func (Builtin builtin_plus)) initial_heap).
  vm_compute. reflexivity.
Defined.

(** *** Applications *)

(** An application whose head is an ordinary symbol: the head is
    evaluated, then the arguments, then the call is made. *)
Lemma eval_application (fuel : nat) (sym : string) (rest : list Expression)
    (env : loc) (h : Heap) :
  special sym = false ->
  eval (S fuel) (ListOf (Symbol sym :: rest)) env h =
    (run funcExpr in h <- eval fuel (Symbol sym) env h;
     match funcExpr with
     | Func func =>
         run args in h <- eval_args (eval fuel) rest env h;
         invoke (eval fuel) func args h
     | _ => Threw (runtime_error "First element is not a function") h
     end).
Proof.
  unfold special. intros Hs.
  apply orb_false_iff in Hs as [Hs Hif].
  apply orb_false_iff in Hs as [Hdef Hlam].
  simpl. rewrite Hdef, Hlam, Hif. reflexivity.
Qed.

(** C1 (as the code has it): when the first element of a non-empty list
    is not a Symbol (a Number, a List, a Function), evaluation throws
    "First element must be a symbol" without evaluating it.  When it is a
    Symbol other than [define], [lambda] and [if], it is evaluated in the
    current environment: a value that is not a Function makes the
    application throw "First element is not a function", a Function makes
    it go on to the arguments and the call; a failure of the head is the
    application's failure. *)
Theorem application_head_must_be_symbol :
  (forall fuel first rest env h,
     isSymbol first = false ->
     eval (S fuel) (ListOf (first :: rest)) env h =
       Threw (runtime_error "First element must be a symbol") h) /\
  (forall fuel sym rest env h v h1,
     special sym = false ->
     eval fuel (Symbol sym) env h = Returned v h1 ->
     (isFunction v = false ->
      eval (S fuel) (ListOf (Symbol sym :: rest)) env h =
        Threw (runtime_error "First element is not a function") h1) /\
     (forall func, v = Func func ->
      eval (S fuel) (ListOf (Symbol sym :: rest)) env h =
        (run args in h2 <- eval_args (eval fuel) rest env h1;
         invoke (eval fuel) func args h2))) /\
  (forall fuel sym rest env h err h1,
     special sym = false ->
     eval fuel (Symbol sym) env h = Threw err h1 ->
     eval (S fuel) (ListOf (Symbol sym :: rest)) env h = Threw err h1).
Proof.
  split; [|split].
  - intros fuel first rest env h Hns.
    destruct first as [d|s|l|f]; [reflexivity | discriminate | reflexivity | reflexivity].
  - intros fuel sym rest env h v h1 Hs E.
    rewrite (eval_application fuel sym rest env h Hs), E. simpl. split.
    + destruct v as [d|s|l|f]; [reflexivity | reflexivity | reflexivity | discriminate].
    + intros func ->. reflexivity.
  - intros fuel sym rest env h err h1 Hs E.
    rewrite (eval_application fuel sym rest env h Hs), E. reflexivity.
Qed.

Lemma application_head_must_be_symbol_witness :
  (isFunction (Number 5) = false ->
   eval 3 (ListOf [Symbol "five"; Number 1]) globalEnv
        (set initial_heap globalEnv "five" (Number 5)) =
     Threw (runtime_error "First element is not a function")
           (set initial_heap globalEnv "five" (Number 5))) /\
  (forall func, Number 5 = Func func ->
   eval 3 (ListOf [Symbol "five"; Number 1]) globalEnv
        (set initial_heap globalEnv "five" (Number 5)) =
     (run args in h2 <- eval_args (eval 2) [Number 1] globalEnv
                          (set initial_heap globalEnv "five" (Number 5));
      invoke (eval 2) func args h2)).
Proof.
  apply (proj1 (proj2 application_head_must_be_symbol)
           2 "five" [Number 1] globalEnv
           (set initial_heap globalEnv "five" (Number 5))).
  - reflexivity.
  - vm_compute. reflexivity.
Defined.

(** C1 (as stated, refuted): in [((lambda (x) x) 5)] the first element is
    a list that evaluates to a Function, yet the application is not made:
    evaluation throws before evaluating the head.  With a Number as head,
    [(1 2)], the exception is the same one, not "First element is not a
    function". *)
Lemma list_head_is_not_evaluated :
  eval 2 (ListOf [Symbol "lambda"; ListOf [Symbol "x"]; Symbol "x"])
       globalEnv initial_heap =
    Returned (Func (Closure ["x"] (Symbol "x") globalEnv)) initial_heap /\
  read_eval 20 "((lambda (x) x) 5)" initial_heap =
    Threw (runtime_error "First element must be a symbol") initial_heap /\
  read_eval 20 "(1 2)" initial_heap =
    Threw (runtime_error "First element must be a symbol") initial_heap.
Proof. repeat split; vm_compute; reflexivity. Qed.

(** *** Closures *)

Lemma bindings_notin (m : gmap string Expression) (params : list string)
    (args : list Expression) (p : string) :
  p ∉ params -> bindings m params args !! p = m !! p.
Proof.
  revert m args. induction params as [|q params IH]; intros m [|a args] Hp; simpl; auto.
  apply not_elem_of_cons in Hp as [Hne Hp].
  rewrite IH by exact Hp. apply lookup_insert_ne. congruence.
Qed.

(** With distinct parameters, each one is bound to the argument at its
    own position. *)
Lemma bindings_lookup (m : gmap string Expression) (params : list string)
    (args : list Expression) (i : nat) (p : string) (a : Expression) :
  NoDup params -> params !! i = Some p -> args !! i = Some a ->
  bindings m params args !! p = Some a.
Proof.
  revert m args i. induction params as [|q params IH]; intros m args i Hnd Hp Ha.
  - destruct i; discriminate.
  - apply NoDup_cons in Hnd as [Hq Hnd].
    destruct args as [|b args]; [destruct i; discriminate|].
    destruct i as [|i]; simpl in *.
    + injection Hp as ->. injection Ha as ->.
      rewrite bindings_notin by exact Hq. apply lookup_insert_eq.
    + eapply IH; eauto.
Qed.

(** A name is resolved from a call frame in the frame itself, else from
    the environment the closure captured. *)
Lemma find_call_frame (h : Heap) (m : gmap string Expression) (cenv : loc) (x : string) :
  chains_ok h -> (cenv < List.length h)%nat ->
  find (h ++ [mkEnvironment m (Some cenv)]) (List.length h) x =
    match m !! x with
    | Some v => Some v
    | None => find h cenv x
    end.
Proof.
  intros Hok Hc. unfold find. rewrite length_app, Nat.add_1_r. simpl.
  rewrite lookup_app_r, Nat.sub_diag by lia. simpl.
  destruct (m !! x); [reflexivity|].
  apply find_from_app; assumption.
Qed.

(** C6: a closure of k parameters called with n evaluated arguments: when
    n differs from k the application throws "Incorrect number of
    arguments" and leaves the store as the evaluation of the arguments
    left it, no frame made and no parameter bound; when n = k the body is
    evaluated in a new frame whose [outer] is the captured environment and
    whose variables are the parameters and nothing else, each of them,
    when they are distinct, bound to the argument at its position. *)
Theorem closure_call_checks_arity (fuel : nat) (sym : string)
    (rest : list Expression) (env : loc) (h h0 h1 : Heap)
    (params : list string) (body : Expression) (cenv : loc)
    (args : list Expression) :
  special sym = false ->
  eval fuel (Symbol sym) env h = Returned (Func (Closure params body cenv)) h0 ->
  eval_args (eval fuel) rest env h0 = Returned args h1 ->
  (List.length args <> List.length params ->
   eval (S fuel) (ListOf (Symbol sym :: rest)) env h =
     Threw (runtime_error "Incorrect number of arguments") h1) /\
  (List.length args = List.length params ->
   eval (S fuel) (ListOf (Symbol sym :: rest)) env h =
     eval fuel body (List.length h1)
          (h1 ++ [mkEnvironment (bindings ∅ params args) (Some cenv)]) /\
   (forall i p a, NoDup params -> params !! i = Some p -> args !! i = Some a ->
                  bindings ∅ params args !! p = Some a) /\
   (forall p, p ∉ params -> bindings ∅ params args !! p = None)).
Proof.
  intros Hs Ehead Eargs.
  rewrite (eval_application fuel sym rest env h Hs), Ehead. cbn [obind].
  rewrite Eargs. cbn [obind]. rewrite invoke_closure.
  split.
  - intros Hne. apply Nat.eqb_neq in Hne. rewrite Hne. reflexivity.
  - intros Heq. apply Nat.eqb_eq in Heq. rewrite Heq.
    split; [reflexivity|]. split.
    + intros i p a. apply bindings_lookup.
    + intros p Hp. rewrite bindings_notin by exact Hp. apply lookup_empty.
Qed.

Lemma closure_call_checks_arity_witness :
  (List.length [Number 1; Number 2] <> List.length ["x"] ->
   eval 3 (ListOf [Symbol "f"; Number 1; Number 2]) globalEnv store_with_f =
     Threw (runtime_error "Incorrect number of arguments") store_with_f) /\
  (List.length [Number 1; Number 2] = List.length ["x"] ->
   eval 3 (ListOf [Symbol "f"; Number 1; Number 2]) globalEnv store_with_f =
     eval 2 (Symbol "x") (List.length store_with_f)
          (store_with_f ++
             [mkEnvironment (bindings ∅ ["x"] [Number 1; Number 2]) (Some globalEnv)]) /\
   (forall i p a, NoDup ["x"] -> ["x"] !! i = Some p ->
                  [Number 1; Number 2] !! i = Some a ->
                  bindings ∅ ["x"] [Number 1; Number 2] !! p = Some a) /\
   (forall p, p ∉ ["x"] -> bindings ∅ ["x"] [Number 1; Number 2] !! p = None)).
Proof.
  apply (closure_call_checks_arity 2 "f" [Number 1; Number 2] globalEnv
           store_with_f store_with_f store_with_f ["x"] (Symbol "x") globalEnv).
  - reflexivity.
  - vm_compute. reflexivity.
  - vm_compute. reflexivity.
Defined.

(** C5: [lambda] captures the environment it is evaluated in; a call of
    the closure evaluates the body in a new frame whose [outer] is that
    captured environment, whatever environment the call is made from, so
    a name that is not a parameter is found in the captured environment.
    The nested adder gives 8, and a closure reading a global [x] still
    reads it when called from a frame that binds another [x]. *)
Theorem closures_are_lexically_scoped :
  (forall fuel ps body env h params,
     lambda_params ps = Ok params ->
     eval (S fuel) (ListOf [Symbol "lambda"; ListOf ps; body]) env h =
       Returned (Func (Closure params body env)) h) /\
  (forall ev params body cenv args h,
     List.length args = List.length params ->
     invoke ev (Closure params body cenv) args h =
       ev body (List.length h)
          (h ++ [mkEnvironment (bindings ∅ params args) (Some cenv)])) /\
  (forall h params args cenv x,
     chains_ok h -> (cenv < List.length h)%nat -> x ∉ params ->
     find (h ++ [mkEnvironment (bindings ∅ params args) (Some cenv)])
          (List.length h) x = find h cenv x) /\
  last (main_loop 60 ["(define make-adder (lambda (x) (lambda (y) (+ x y))))";
                      "(define add5 (make-adder 5))";
                      "(add5 3)"] initial_heap) = Some (Ok (Number 8)) /\
  last (main_loop 40 ["(define x 1)";
                      "(define getx (lambda () x))";
                      "(define call (lambda (x) (getx)))";
                      "(call 99)"] initial_heap) = Some (Ok (Number 1)).
Proof.
  split; [|split; [|split; [|split]]].
  - intros fuel ps body env h params Hps. simpl. rewrite Hps. reflexivity.
  - intros ev params body cenv args h Hlen.
    rewrite invoke_closure. apply Nat.eqb_eq in Hlen. rewrite Hlen. reflexivity.
  - intros h params args cenv x Hok Hc Hx.
    rewrite find_call_frame by assumption.
    rewrite bindings_notin by exact Hx. rewrite lookup_empty. reflexivity.
  - vm_compute. reflexivity.
  - vm_compute. reflexivity.
Qed.

Lemma closures_are_lexically_scoped_witness :
  find (initial_heap ++ [mkEnvironment (bindings ∅ ["x"] [Number 5]) (Some globalEnv)])
       (List.length initial_heap) "+" = find initial_heap globalEnv "+".
Proof.
  apply (proj1 (proj2 (proj2 closures_are_lexically_scoped))
           initial_heap ["x"] [Number 5] globalEnv "+").
  - intros l fr o Hl Ho. destruct l as [|l]; [|destruct l; discriminate].
    vm_compute in Hl. injection Hl as <-. discriminate.
  - vm_compute. lia.
  - apply not_elem_of_cons. split; [discriminate | apply not_elem_of_nil].
Defined.

(** ** The built-in functions *)

Lemma plus_loop_numbers (ds : list float) (sum : float) :
  plus_loop (map Number ds) sum = Ok (fold_left PrimFloat.add ds sum).
Proof.
  revert sum. induction ds as [|d ds IH]; intros sum; simpl; [reflexivity|].
  apply IH.
Qed.

Lemma plus_loop_non_number (args : list Expression) (sum : float) :
  has_non_number args = true ->
  plus_loop args sum = Throw (runtime_error "Arguments to '+' must be numbers").
Proof.
  revert sum. induction args as [|arg args IH]; intros sum H; simpl in *.
  - discriminate.
  - destruct arg as [d|s|l|f]; try reflexivity. apply IH, H.
Qed.

Lemma minus_loop_numbers (ds : list float) (acc : float) :
  minus_loop (map Number ds) acc = Ok (fold_left PrimFloat.sub ds acc).
Proof.
  revert acc. induction ds as [|d ds IH]; intros acc; simpl; [reflexivity|].
  apply IH.
Qed.

Lemma minus_loop_non_number (args : list Expression) (acc : float) :
  has_non_number args = true ->
  minus_loop args acc = Throw (runtime_error "Arguments to '-' must be numbers").
Proof.
  revert acc. induction args as [|arg args IH]; intros acc H; simpl in *.
  - discriminate.
  - destruct arg as [d|s|l|f]; try reflexivity. apply IH, H.
Qed.

(** C8: [+] on Numbers returns their sum, added from the left starting
    from 0, so 0 on no argument, and throws when some argument is not a
    Number; [-] throws on no argument, negates a single Number, and on two
    or more Numbers subtracts the later ones from the first, from the
    left, and throws when some argument is not a Number.  [(+ 1 2 3)] is
    6, [(- 10 1 2)] is 7, [(- 5)] is -5 and [(+)] is 0. *)
Theorem plus_and_minus_builtins :
  (forall ds, plus (map Number ds) = Ok (Number (fold_left PrimFloat.add ds 0%float))) /\
  plus [] = Ok (Number 0) /\
  (forall args, has_non_number args = true ->
     plus args = Throw (runtime_error "Arguments to '+' must be numbers")) /\
  minus [] = Throw (runtime_error "'-' requires at least one argument") /\
  (forall d, minus [Number d] = Ok (Number (- d))) /\
  (forall d d' ds,
     minus (map Number (d :: d' :: ds)) =
       Ok (Number (fold_left PrimFloat.sub (d' :: ds) d))) /\
  (forall args, args <> [] -> has_non_number args = true ->
     minus args = Throw (runtime_error "Arguments to '-' must be numbers")) /\
  main_loop 20 ["(+ 1 2 3)"; "(- 10 1 2)"; "(- 5)"; "(+)"] initial_heap =
    [Ok (Number 6); Ok (Number 7); Ok (Number (-5)); Ok (Number 0)].
Proof.
  repeat apply conj.
  - intros ds. unfold plus. rewrite plus_loop_numbers. reflexivity.
  - reflexivity.
  - intros args H. unfold plus. rewrite plus_loop_non_number by exact H. reflexivity.
  - reflexivity.
  - reflexivity.
  - intros d d' ds. cbn [map minus].
    change (Number d' :: map Number ds) with (map Number (d' :: ds)).
    rewrite minus_loop_numbers. reflexivity.
  - intros [|arg args] Hne H; [congruence|]. unfold minus.
    destruct arg as [d|s|l|f]; try reflexivity.
    simpl in H. destruct args as [|arg' args]; [discriminate|].
    rewrite minus_loop_non_number by exact H. reflexivity.
  - vm_compute. reflexivity.
Qed.

Lemma plus_and_minus_builtins_witness :
  plus [Number 1; Symbol "a"] = Throw (runtime_error "Arguments to '+' must be numbers") /\
  minus [Number 1; Symbol "a"] = Throw (runtime_error "Arguments to '-' must be numbers").
Proof.
  split.
  - apply (proj1 (proj2 (proj2 plus_and_minus_builtins)) [Number 1; Symbol "a"]).
    reflexivity.
  - apply (proj1 (proj2 (proj2 (proj2 (proj2 (proj2 (proj2 plus_and_minus_builtins))))))).
    + discriminate.
    + reflexivity.
Defined.

(** ** More on environments and evaluation *)

Lemma find_from_set_other (h : Heap) (env : loc) (x y : string) (v : Expression)
    (n : nat) (l : loc) :
  x <> y -> find_from n (set h env x v) l y = find_from n h l y.
Proof.
  intros Hxy. revert l. induction n as [|n IH]; intros l; simpl; [reflexivity|].
  destruct (decide (l = env)) as [->|Hne].
  - destruct (h !! env) as [fr|] eqn:Hfr.
    + rewrite (set_lookup_eq h env x v fr Hfr). simpl.
      rewrite lookup_insert_ne by exact Hxy.
      destruct (vars fr !! y); [reflexivity|].
      destruct (outer fr); [apply IH | reflexivity].
    + unfold set. rewrite Hfr. cbn iota. rewrite Hfr. reflexivity.
  - rewrite set_lookup_ne by exact Hne.
    destruct (h !! l) as [fr|]; [|reflexivity].
    destruct (vars fr !! y); [reflexivity|].
    destruct (outer fr); [apply IH | reflexivity].
Qed.

(** X11: [set] of one name changes the lookup of no other name, from any
    frame: [find] of [y] after [set] of [x] is [find] of [y] before. *)
Theorem set_keeps_other_names (h : Heap) (env l : loc) (x y : string) (v : Expression) :
  x <> y -> find (set h env x v) l y = find h l y.
Proof.
  intros Hxy. unfold find. rewrite set_length. apply find_from_set_other, Hxy.
Qed.

Lemma set_keeps_other_names_witness :
  find (set initial_heap globalEnv "x" (Number 1)) globalEnv "+" =
  find initial_heap globalEnv "+".
Proof.
  apply (set_keeps_other_names initial_heap globalEnv globalEnv "x" "+" (Number 1)).
  discriminate.
Defined.

(** X12: frames are shared, not copied: a name set in a frame is found
    from a frame whose [outer] is that frame and that does not bind the
    name itself, also when the inner frame was made before the [set] (a
    closure sees globals defined after it). *)
Theorem set_seen_from_inner_frame (h : Heap) (env l : loc) (fr : Environment)
    (x : string) (v : Expression) :
  chains_ok h ->
  h !! l = Some fr -> vars fr !! x = None -> outer fr = Some env ->
  find (set h env x v) l x = Some v.
Proof.
  intros Hok Hfr Hx Hout.
  pose proof (Hok l fr env Hfr Hout) as Hlt.
  pose proof (lookup_lt_Some _ _ _ Hfr) as Hl.
  destruct (lookup_lt_is_Some_2 h env ltac:(lia)) as [fr0 Hfr0].
  unfold find. rewrite set_length.
  destruct (List.length h) as [|[|n]] eqn:Hlen; [lia..|].
  cbn [find_from].
  rewrite set_lookup_ne by lia. rewrite Hfr, Hx, Hout.
  rewrite (set_lookup_eq h env x v fr0 Hfr0). cbn [vars].
  rewrite lookup_insert_eq. reflexivity.
Qed.

Lemma set_seen_from_inner_frame_witness :
  find (set (initial_heap ++ [mkEnvironment ∅ (Some globalEnv)]) globalEnv "y" (Number 5))
       1 "y" = Some (Number 5).
Proof.
  apply (set_seen_from_inner_frame
           (initial_heap ++ [mkEnvironment ∅ (Some globalEnv)]) globalEnv 1
           (mkEnvironment ∅ (Some globalEnv)) "y" (Number 5)).
  - intros l fr o Hl Ho. destruct l as [|[|l]]; [| |destruct l; discriminate].
    + vm_compute in Hl. injection Hl as <-. discriminate.
    + vm_compute in Hl. injection Hl as <-. injection Ho as <-. lia.
  - reflexivity.
  - reflexivity.
  - reflexivity.
Defined.

Lemma eval_args_app (ev : Expression -> loc -> Heap -> outcome Expression)
    (l1 l2 : list Expression) (env : loc) (h : Heap) :
  eval_args ev (l1 ++ l2) env h =
    (run a1 in h1 <- eval_args ev l1 env h;
     run a2 in h2 <- eval_args ev l2 env h1;
     Returned (a1 ++ a2) h2).
Proof.
  revert h. induction l1 as [|e l1 IH]; intros h; simpl.
  - destruct (eval_args ev l2 env h); reflexivity.
  - destruct (ev e env h) as [v h1|x h1| |]; simpl; try reflexivity.
    rewrite IH. destruct (eval_args ev l1 env h1) as [a1 h2|x h2| |]; simpl;
      try reflexivity.
    destruct (eval_args ev l2 env h2); reflexivity.
Qed.

(** X13: the arguments of an application are evaluated from left to
    right and the first failure ends the application: the arguments after
    the failing one are not evaluated, the function is not called, and
    the store is the one the failing argument left. *)
Theorem first_failing_argument_ends_application (fuel : nat) (sym : string)
    (pre post : list Expression) (e : Expression) (env : loc) (h h0 h1 h2 : Heap)
    (func : Function) (vs : list Expression) (err : exception) :
  special sym = false ->
  eval fuel (Symbol sym) env h = Returned (Func func) h0 ->
  eval_args (eval fuel) pre env h0 = Returned vs h1 ->
  eval fuel e env h1 = Threw err h2 ->
  eval (S fuel) (ListOf (Symbol sym :: pre ++ e :: post)) env h = Threw err h2.
Proof.
  intros Hs Hhead Hpre He.
  rewrite (eval_application fuel sym _ env h Hs), Hhead. cbn [obind].
  rewrite eval_args_app, Hpre. cbn [obind eval_args]. rewrite He. reflexivity.
Qed.

Lemma first_failing_argument_ends_application_witness :
  eval 3 (ListOf (Symbol "+" :: [Number 1] ++ ListOf [Symbol "foo"] ::
                    [ListOf [Symbol "define"; Symbol "x"; Number 2]]))
       globalEnv initial_heap =
  Threw (runtime_error "Undefined symbol: foo") initial_heap.
Proof.
  apply (first_failing_argument_ends_application 2 "+" [Number 1]
           [ListOf [Symbol "define"; Symbol "x"; Number 2]] (ListOf [Symbol "foo"])
           globalEnv initial_heap initial_heap initial_heap initial_heap
           (Builtin builtin_plus) [Number 1]);
    vm_compute; reflexivity.
Defined.

(** X14: an evaluation that returns leaves the store as a failing one
    does: no frame is lost, only the frame of the evaluation can change,
    and it keeps its [outer] link and its names; and evaluating a term
    without [define] form changes no frame that existed and no lookup. *)
Theorem returning_eval_store (fuel : nat) (expr : Expression) (env : loc)
    (h h' : Heap) (v : Expression) :
  eval fuel expr env h = Returned v h' ->
  grows_only env h h' /\
  (no_define expr = true ->
   (exists k, h' = h ++ k) /\
   (chains_ok h ->
    forall l x, (l < List.length h)%nat -> find h' l x = find h l x)).
Proof.
  intros E. split.
  - apply (eval_keeps fuel expr). rewrite E. reflexivity.
  - intros Hnd.
    assert (exists k, h' = h ++ k) as [k ->].
    { apply (eval_appends fuel expr env); [exact Hnd|]. rewrite E. reflexivity. }
    split; [eauto|].
    intros Hok l x Hl. apply find_app; assumption.
Qed.

Lemma returning_eval_store_witness :
  grows_only globalEnv store_with_f
    (store_with_f ++ [mkEnvironment (bindings ∅ ["x"] [Number 1]) (Some globalEnv)]) /\
  (no_define (ListOf [Symbol "f"; Number 1]) = true ->
   (exists k,
      store_with_f ++ [mkEnvironment (bindings ∅ ["x"] [Number 1]) (Some globalEnv)] =
      store_with_f ++ k) /\
   (chains_ok store_with_f ->
    forall l x, (l < List.length store_with_f)%nat ->
      find (store_with_f ++
              [mkEnvironment (bindings ∅ ["x"] [Number 1]) (Some globalEnv)]) l x =
      find store_with_f l x)).
Proof.
  apply (returning_eval_store 3 (ListOf [Symbol "f"; Number 1]) globalEnv
           store_with_f _ (Number 1)).
  vm_compute. reflexivity.
Defined.

(** X15: every store that [main] can hold, after any lines, failing or
    not, has its global frame, chains of [outer] links that go to older
    frames only (so they end), and closures that captured frames of the
    store. *)
Theorem reachable_stores_are_sound (h : Heap) :
  reachable h -> store_ok h /\ (globalEnv < List.length h)%nat.
Proof.
  induction 1 as [|fuel line h h' _ [Hok Hg] Hline].
  - exact initial_heap_ok.
  - exact (read_eval_store_ok fuel line h Hok Hg h' Hline).
Qed.

Lemma reachable_stores_are_sound_witness :
  store_ok (set initial_heap globalEnv "x" (Number 1)) /\
  (globalEnv < List.length (set initial_heap globalEnv "x" (Number 1)))%nat.
Proof.
  apply (reachable_stores_are_sound (set initial_heap globalEnv "x" (Number 1))).
  apply (reachable_line 20 "(+ (define x 1) (foo))" initial_heap).
  - apply reachable_start.
  - vm_compute. reflexivity.
Defined.

Lemma bindings_last (m : gmap string Expression) (params : list string)
    (args : list Expression) (i : nat) (p : string) (a : Expression) :
  params !! i = Some p -> args !! i = Some a ->
  (forall j, (i < j)%nat -> params !! j <> Some p) ->
  bindings m params args !! p = Some a.
Proof.
  revert m args i. induction params as [|q params IH]; intros m args i Hp Ha Hlast.
  - destruct i; discriminate.
  - destruct args as [|b args]; [destruct i; discriminate|].
    destruct i as [|i]; simpl in *.
    + injection Hp as ->. injection Ha as ->.
      rewrite bindings_notin; [apply lookup_insert_eq|].
      intros Hin. apply list_elem_of_lookup in Hin as [j Hj].
      apply (Hlast (S j)); [lia | exact Hj].
    + apply (IH _ args i); [exact Hp | exact Ha |].
      intros j Hj. apply (Hlast (S j)). lia.
Qed.

(** X16: in the frame of a call a parameter hides every binding of the
    same name in the captured environment, and a parameter name that is
    repeated is bound to the argument of its last occurrence: the binding
    loop overwrites. *)
Theorem parameter_found_in_call_frame (h : Heap) (cenv : option loc)
    (params : list string) (args : list Expression) (i : nat) (p : string)
    (a : Expression) :
  params !! i = Some p -> args !! i = Some a ->
  (forall j, (i < j)%nat -> params !! j <> Some p) ->
  find (bind_params (snd (new_Environment h cenv)) (fst (new_Environment h cenv))
                    params args)
       (fst (new_Environment h cenv)) p = Some a.
Proof.
  intros Hp Ha Hlast. cbn [new_Environment fst snd].
  rewrite bind_params_last. unfold find. rewrite length_app, Nat.add_1_r.
  cbn [find_from]. rewrite lookup_app_r, Nat.sub_diag by lia. cbn [lookup list_lookup vars].
  rewrite (bindings_last ∅ params args i p a Hp Ha Hlast). reflexivity.
Qed.

Lemma parameter_found_in_call_frame_witness :
  find (bind_params (snd (new_Environment initial_heap (Some globalEnv)))
                    (fst (new_Environment initial_heap (Some globalEnv)))
                    ["+"; "+"] [Number 1; Number 2])
       (fst (new_Environment initial_heap (Some globalEnv))) "+" = Some (Number 2).
Proof.
  apply (parameter_found_in_call_frame initial_heap (Some globalEnv)
           ["+"; "+"] [Number 1; Number 2] 1 "+" (Number 2)).
  - reflexivity.
  - reflexivity.
  - intros j Hj. destruct j as [|[|j]]; [lia | lia | discriminate].
Defined.

Lemma lambda_params_symbols (names : list string) :
  lambda_params (map Symbol names) = Ok names.
Proof.
  induction names as [|s names IH]; simpl; [reflexivity|]. rewrite IH. reflexivity.
Qed.

Lemma lambda_params_non_symbol (ps : list Expression) :
  forallb isSymbol ps = false ->
  lambda_params ps = Throw (runtime_error "Lambda parameters must be symbols").
Proof.
  induction ps as [|p ps IH]; simpl; [discriminate|].
  destruct p as [d|s|l|f]; simpl; try reflexivity.
  intros H. rewrite (IH H). reflexivity.
Qed.

(** X17: [lambda] takes any list of symbols as parameters, repeated names
    too, and returns the closure of them, the body as it stands and the
    current environment, without evaluating the body or touching the
    store; a parameter list with an element that is not a symbol makes it
    throw "Lambda parameters must be symbols", and any other shape than a
    list and one more element "Invalid lambda syntax". *)
Theorem lambda_takes_symbol_lists :
  (forall fuel names body env h,
     eval (S fuel) (ListOf [Symbol "lambda"; ListOf (map Symbol names); body]) env h =
       Returned (Func (Closure names body env)) h) /\
  (forall fuel ps body env h,
     forallb isSymbol ps = false ->
     eval (S fuel) (ListOf [Symbol "lambda"; ListOf ps; body]) env h =
       Threw (runtime_error "Lambda parameters must be symbols") h) /\
  (forall fuel rest env h,
     lambda_shape rest = false ->
     eval (S fuel) (ListOf (Symbol "lambda" :: rest)) env h =
       Threw (runtime_error "Invalid lambda syntax") h).
Proof.
  split; [|split].
  - intros fuel names body env h. simpl. rewrite lambda_params_symbols. reflexivity.
  - intros fuel ps body env h Hps. simpl.
    rewrite (lambda_params_non_symbol ps Hps). reflexivity.
  - intros fuel rest env h Hshape. simpl.
    destruct rest as [|[d|x|l|f] [|e [|? ?]]]; try reflexivity. discriminate.
Qed.

Lemma lambda_takes_symbol_lists_witness :
  eval 1 (ListOf [Symbol "lambda"; ListOf [Symbol "x"; Number 1]; Symbol "x"])
       globalEnv initial_heap =
    Threw (runtime_error "Lambda parameters must be symbols") initial_heap /\
  eval 1 (ListOf (Symbol "lambda" :: [Symbol "x"; Symbol "x"])) globalEnv initial_heap =
    Threw (runtime_error "Invalid lambda syntax") initial_heap.
Proof.
  split.
  - apply (proj1 (proj2 lambda_takes_symbol_lists) 0 [Symbol "x"; Number 1]).
    reflexivity.
  - apply (proj2 (proj2 lambda_takes_symbol_lists) 0 [Symbol "x"; Symbol "x"]).
    reflexivity.
Defined.

Lemma eval_args_length (ev : Expression -> loc -> Heap -> outcome Expression)
    (elems : list Expression) (env : loc) (h h' : Heap) (args : list Expression) :
  eval_args ev elems env h = Returned args h' -> List.length args = List.length elems.
Proof.
  revert h h' args. induction elems as [|e elems IH]; intros h h' args; simpl.
  - intros [= <- _]. reflexivity.
  - destruct (ev e env h) as [v h1|x h1| |]; simpl; try discriminate.
    destruct (eval_args ev elems env h1) as [vs h2|x h2| |] eqn:E; simpl;
      try discriminate.
    intros [= <- _]. simpl. f_equal. eapply IH, E.
Qed.

(** X18: the arity test counts the argument expressions of the
    application: a closure of k parameters applied to a number of
    argument expressions other than k throws "Incorrect number of
    arguments" once they are all evaluated, and the body is not
    evaluated. *)
Theorem wrong_argument_count_throws (fuel : nat) (sym : string)
    (rest : list Expression) (env : loc) (h h0 h1 : Heap)
    (params : list string) (body : Expression) (cenv : loc)
    (args : list Expression) :
  special sym = false ->
  eval fuel (Symbol sym) env h = Returned (Func (Closure params body cenv)) h0 ->
  eval_args (eval fuel) rest env h0 = Returned args h1 ->
  List.length rest <> List.length params ->
  eval (S fuel) (ListOf (Symbol sym :: rest)) env h =
    Threw (runtime_error "Incorrect number of arguments") h1.
Proof.
  intros Hs Hhead Hargs Hlen.
  rewrite (eval_application fuel sym rest env h Hs), Hhead. cbn [obind].
  rewrite Hargs. cbn [obind]. rewrite invoke_closure.
  rewrite (eval_args_length _ _ _ _ _ _ Hargs).
  apply Nat.eqb_neq in Hlen. rewrite Hlen. reflexivity.
Qed.

Lemma wrong_argument_count_throws_witness :
  eval 3 (ListOf (Symbol "f" :: [])) globalEnv store_with_f =
    Threw (runtime_error "Incorrect number of arguments") store_with_f.
Proof.
  apply (wrong_argument_count_throws 2 "f" [] globalEnv store_with_f store_with_f
           store_with_f ["x"] (Symbol "x") globalEnv []).
  - reflexivity.
  - vm_compute. reflexivity.
  - reflexivity.
  - simpl. lia.
Defined.

(** X19: an application of a built-in returns a Number or throws, and in
    both cases leaves the store as the evaluation of the arguments left
    it. *)
Theorem builtin_application_returns_number (fuel : nat) (sym : string)
    (rest : list Expression) (env : loc) (h h0 h1 : Heap) (b : BuiltinFunc)
    (args : list Expression) :
  special sym = false ->
  eval fuel (Symbol sym) env h = Returned (Func (Builtin b)) h0 ->
  eval_args (eval fuel) rest env h0 = Returned args h1 ->
  (exists d, eval (S fuel) (ListOf (Symbol sym :: rest)) env h = Returned (Number d) h1) \/
  (exists e, eval (S fuel) (ListOf (Symbol sym :: rest)) env h = Threw e h1).
Proof.
  intros Hs Hhead Hargs.
  rewrite (eval_application fuel sym rest env h Hs), Hhead. cbn [obind].
  rewrite Hargs. cbn [obind invoke].
  destruct (call_builtin_number b args) as [[d ->]|[e ->]]; simpl; eauto.
Qed.

Lemma builtin_application_returns_number_witness :
  (exists d, eval 3 (ListOf (Symbol "-" :: [Symbol "+"])) globalEnv initial_heap =
               Returned (Number d) initial_heap) \/
  (exists e, eval 3 (ListOf (Symbol "-" :: [Symbol "+"])) globalEnv initial_heap =
               Threw e initial_heap).
Proof.
  apply (builtin_application_returns_number 2 "-" [Symbol "+"] globalEnv
           initial_heap initial_heap initial_heap builtin_minus
           [Func (Builtin builtin_plus)]);
    vm_compute; reflexivity.
Defined.

(** ** The exceptions of a line *)

Ltac known_message := left; simpl; tauto.

Lemma bodies_ok_set (h : Heap) (env : loc) (x : string) (v : Expression) :
  bodies_ok h -> body_ok v -> bodies_ok (set h env x v).
Proof.
  intros Hh Hv l fr y w Hl Hy.
  destruct (decide (l = env)) as [->|Hne].
  - destruct (h !! env) as [fr0|] eqn:Hfr0.
    + rewrite (set_lookup_eq h env x v fr0 Hfr0) in Hl. injection Hl as <-.
      simpl in Hy. destruct (decide (x = y)) as [->|Hxy].
      * rewrite lookup_insert_eq in Hy. injection Hy as <-. exact Hv.
      * rewrite lookup_insert_ne in Hy by exact Hxy. eapply Hh; eassumption.
    + unfold set in Hl. rewrite Hfr0 in Hl. congruence.
  - rewrite set_lookup_ne in Hl by exact Hne. eapply Hh; eassumption.
Qed.

Lemma bodies_ok_call_frame (h : Heap) (params : list string)
    (args : list Expression) (cenv : loc) :
  bodies_ok h -> Forall body_ok args ->
  bodies_ok (h ++ [mkEnvironment (bindings ∅ params args) (Some cenv)]).
Proof.
  intros Hh Hargs l fr x v Hl Hx.
  destruct (decide (l < List.length h)%nat) as [Hlt|Hge].
  - rewrite lookup_app_l in Hl by exact Hlt. eapply Hh; eassumption.
  - rewrite lookup_app_r in Hl by lia.
    destruct (l - List.length h)%nat as [|n]; [|destruct n; discriminate].
    injection Hl as <-. simpl in Hx.
    eapply (bindings_values _ ∅ params args); [|exact Hargs|exact Hx].
    intros y w Hy. rewrite lookup_empty in Hy. discriminate.
Qed.

Lemma find_from_body_ok (h : Heap) (n : nat) (env : loc) (x : string) (v : Expression) :
  bodies_ok h -> find_from n h env x = Some v -> body_ok v.
Proof.
  intros Hh. revert env. induction n as [|n IH]; intros env; simpl; [discriminate|].
  destruct (h !! env) as [fr|] eqn:Hfr; [|discriminate].
  destruct (vars fr !! x) as [w|] eqn:Hx.
  - intros [= <-]. eapply Hh; eassumption.
  - destruct (outer fr) as [o|]; [apply IH | discriminate].
Qed.

Lemma plus_loop_throws (args : list Expression) (sum : float) (e : exception) :
  plus_loop args sum = Throw e ->
  e = runtime_error "Arguments to '+' must be numbers".
Proof.
  revert sum. induction args as [|[d|s|l|f] args IH]; intros sum; simpl;
    try discriminate; try (intros [= <-]; reflexivity). apply IH.
Qed.

Lemma minus_loop_throws (args : list Expression) (acc : float) (e : exception) :
  minus_loop args acc = Throw e ->
  e = runtime_error "Arguments to '-' must be numbers".
Proof.
  revert acc. induction args as [|[d|s|l|f] args IH]; intros acc; simpl;
    try discriminate; try (intros [= <-]; reflexivity). apply IH.
Qed.

Lemma call_builtin_throws (b : BuiltinFunc) (args : list Expression) (e : exception) :
  call_builtin b args = Throw e -> eval_error e.
Proof.
  destruct b; simpl.
  - unfold plus. destruct (plus_loop args 0) eqn:E; simpl; try discriminate.
    intros [= <-]. apply plus_loop_throws in E as ->. known_message.
  - unfold minus. destruct args as [|[d|s|l|f] rest];
      try (intros [= <-]; known_message).
    destruct rest as [|a rest]; [discriminate|].
    destruct (minus_loop (a :: rest) d) eqn:E; simpl; try discriminate.
    intros [= <-]. apply minus_loop_throws in E as ->. known_message.
Qed.

Lemma lambda_params_throws (ps : list Expression) (e : exception) :
  lambda_params ps = Throw e ->
  e = runtime_error "Lambda parameters must be symbols".
Proof.
  induction ps as [|[d|s|l|f] ps IH]; simpl; try discriminate;
    try (intros [= <-]; reflexivity).
  destruct (lambda_params ps); simpl; try discriminate.
  intros [= <-]. apply IH. reflexivity.
Qed.

Section Tidy.

Variable ev : Expression -> loc -> Heap -> outcome Expression.
Hypothesis ev_tidy : tidy ev.

Lemma eval_args_tidy elems env h :
  forallb func_free elems = true -> bodies_ok h ->
  match eval_args ev elems env h with
  | Returned args h' => bodies_ok h' /\ Forall body_ok args
  | Threw e h' => bodies_ok h' /\ eval_error e
  | Faulted | Unfinished => True
  end.
Proof.
  revert h. induction elems as [|e rest IH]; intros h Hff Hh; simpl; [auto|].
  simpl in Hff. apply andb_true_iff in Hff as [He Hrest].
  pose proof (ev_tidy e env h He Hh) as Hev.
  destruct (ev e env h) as [v h1|x h1| |]; simpl; auto.
  destruct Hev as [Hh1 Hv]. specialize (IH h1 Hrest Hh1).
  destruct (eval_args ev rest env h1) as [args h2|x h2| |]; simpl; auto.
  destruct IH as [Hh2 Hargs]. auto.
Qed.

Lemma invoke_tidy func args h :
  bodies_ok h -> body_ok (Func func) -> Forall body_ok args ->
  match invoke ev func args h with
  | Returned v h' => bodies_ok h' /\ body_ok v
  | Threw e h' => bodies_ok h' /\ eval_error e
  | Faulted | Unfinished => True
  end.
Proof.
  intros Hh Hf Hargs. destruct func as [params body cenv|b].
  - rewrite invoke_closure.
    destruct (List.length args =? List.length params)%nat.
    + apply ev_tidy; [exact Hf | apply bodies_ok_call_frame; assumption].
    + split; [exact Hh | known_message].
  - simpl. destruct (call_builtin_number b args) as [[d E]|[e E]]; rewrite E; simpl.
    + auto.
    + split; [exact Hh | eapply call_builtin_throws, E].
Qed.

Lemma eval_body_tidy : tidy (eval_body ev).
Proof.
  intros expr env h Hff Hh. unfold eval_body.
  destruct expr as [d|s|[|first rest]|f]; simpl; auto; [| |discriminate].
  { destruct (find h env s) as [v|] eqn:Hf.
    - split; [exact Hh | eapply find_from_body_ok; eassumption].
    - split; [exact Hh | right; eauto]. }
  simpl in Hff. apply andb_true_iff in Hff as [Hfirst Hrest].
  destruct first as [d|sym|l|f]; try (split; [exact Hh | known_message]).
  destruct (String.eqb sym "define").
  { destruct rest as [|[d|x|l|f] [|e [|? ?]]]; try (split; [exact Hh | known_message]).
    simpl in Hrest. rewrite andb_true_r in Hrest.
    pose proof (ev_tidy e env h Hrest Hh) as Hev.
    destruct (ev e env h) as [v h1|x0 h1| |]; simpl; auto.
    destruct Hev as [Hh1 Hv]. split; [apply bodies_ok_set; assumption | exact Hv]. }
  destruct (String.eqb sym "lambda").
  { destruct rest as [|[d|x|l|f] [|e [|? ?]]]; try (split; [exact Hh | known_message]).
    simpl in Hrest. apply andb_true_iff in Hrest as [_ He]. rewrite andb_true_r in He.
    destruct (lambda_params l) as [params|x| |] eqn:Hps; simpl; auto.
    split; [exact Hh|]. apply lambda_params_throws in Hps as ->. known_message. }
  destruct (String.eqb sym "if").
  { destruct rest as [|c [|t [|e [|? ?]]]]; try (split; [exact Hh | known_message]).
    simpl in Hrest.
    apply andb_true_iff in Hrest as [Hc Hrest].
    apply andb_true_iff in Hrest as [Ht Hrest].
    apply andb_true_iff in Hrest as [He _].
    pose proof (ev_tidy c env h Hc Hh) as Hev.
    destruct (ev c env h) as [v h1|x0 h1| |]; simpl; auto.
    destruct Hev as [Hh1 _]. destruct (truthy v); apply ev_tidy; assumption. }
  pose proof (ev_tidy (Symbol sym) env h eq_refl Hh) as Hev.
  destruct (ev (Symbol sym) env h) as [v h1|x0 h1| |]; simpl; auto.
  destruct Hev as [Hh1 Hv].
  destruct v as [d|s|l|func]; try (split; [exact Hh1 | known_message]).
  pose proof (eval_args_tidy rest env h1 Hrest Hh1) as Hargs.
  destruct (eval_args ev rest env h1) as [args h2|x0 h2| |]; simpl; auto.
  destruct Hargs as [Hh2 Hargs]. apply invoke_tidy; assumption.
Qed.

End Tidy.

Lemma eval_tidy (fuel : nat) : tidy (eval fuel).
Proof.
  induction fuel as [|fuel IH]; [intros expr env h _ _; exact I|].
  apply eval_body_tidy, IH.
Qed.

(** The parser builds no Function. *)
Lemma parser_func_free (tokens : list Token) (fuel : nat) :
  (forall pos expr pos', parseExpression fuel tokens pos = Ok (expr, pos') ->
                         func_free expr = true) /\
  (forall pos expr pos', parseList fuel tokens pos = Ok (expr, pos') ->
                         func_free expr = true) /\
  (forall pos elems out pos',
     forallb func_free elems = true ->
     parseList_loop fuel tokens pos elems = Ok (out, pos') ->
     forallb func_free out = true).
Proof.
  induction fuel as [|fuel (IHe & IHl & IHloop)]; [repeat split; discriminate|].
  split; [|split].
  - intros pos expr pos'. simpl. destruct (tokens !! pos) as [token|]; [|discriminate].
    destruct (type token); try discriminate.
    + apply IHl.
    + intros H. apply rbind_Ok in H as (d & _ & [= <- _]). reflexivity.
    + intros [= <- _]. reflexivity.
  - intros pos expr pos'. simpl. intros H.
    apply rbind_Ok in H as ([elems p] & Hloop & H).
    destruct (tokens !! p) as [token|]; [|discriminate].
    destruct (TokenType_eqb (type token) PAREN_CLOSE); [|discriminate].
    injection H as <- _. simpl. eapply IHloop; [|exact Hloop]. reflexivity.
  - intros pos elems out pos' Helems. simpl.
    destruct (tokens !! pos) as [token|]; [|intros [= <- _]; exact Helems].
    destruct (negb (TokenType_eqb (type token) PAREN_CLOSE));
      [|intros [= <- _]; exact Helems].
    intros H. apply rbind_Ok in H as ([expr p] & He & Hloop).
    eapply IHloop; [|exact Hloop].
    rewrite forallb_app, Helems. simpl. rewrite (IHe _ _ _ He). reflexivity.
Qed.

Lemma reachable_bodies_ok (h : Heap) : reachable h -> bodies_ok h.
Proof.
  induction 1 as [|fuel line h h' _ IH Hline].
  - unfold initial_heap, startup, addBuiltins. simpl snd.
    repeat apply bodies_ok_set; try exact I.
    intros l fr x v Hl Hx. destruct l as [|l]; [|destruct l; discriminate].
    injection Hl as <-. simpl in Hx. rewrite lookup_empty in Hx. discriminate.
  - unfold read_eval in Hline.
    destruct (parse fuel line) as [expr|e| |] eqn:Hparse; simpl in Hline;
      try discriminate.
    + unfold parse in Hparse.
      apply rbind_Ok in Hparse as (tokens & _ & Hparse).
      apply rbind_Ok in Hparse as ([expr' p] & He & [= ->]).
      apply (proj1 (parser_func_free tokens fuel)) in He.
      pose proof (eval_tidy fuel expr globalEnv h He IH) as Hev.
      destruct (eval fuel expr globalEnv h) as [v h1|x h1| |]; simpl in Hline;
        try discriminate; injection Hline as <-; tauto.
    + injection Hline as <-. exact IH.
Qed.



(** ** Arithmetic *)

Lemma eval_symbol (fuel : nat) (s : string) (env : loc) (h : Heap) (v : Expression) :
  find h env s = Some v -> eval (S fuel) (Symbol s) env h = Returned v h.
Proof. intros Hf. simpl. rewrite Hf. reflexivity. Qed.

Section Arithmetic.

Variables (env : loc) (h : Heap).
Hypothesis plus_bound : find h env "+" = Some (Func (Builtin builtin_plus)).
Hypothesis minus_bound : find h env "-" = Some (Func (Builtin builtin_minus)).

(** The arguments, each evaluated to its number, the store unchanged. *)
Lemma eval_args_arith (args : list Expression) (fuel : nat) :
  Forall (evaluates_to_denotation env h) args ->
  forallb arith args = true ->
  (fold_right (fun e n => Nat.max (depth e) n) 0%nat args < fuel)%nat ->
  eval_args (eval fuel) args env h = Returned (map Number (map denote args)) h.
Proof.
  induction args as [|a args IH]; intros Hall Harith Hfuel; simpl; [reflexivity|].
  apply Forall_cons in Hall as [Ha Hall].
  simpl in Harith. apply andb_true_iff in Harith as [Haa Harith].
  simpl in Hfuel.
  rewrite (Ha Haa fuel) by lia. cbn [obind].
  rewrite IH by (auto; lia). reflexivity.
Qed.

Lemma arith_evaluates (expr : Expression) : evaluates_to_denotation env h expr.
Proof.
  induction expr as [d|s|elems IH|f] using Expression_nested_ind;
    intros Harith fuel Hfuel; try discriminate.
  - destruct fuel as [|fuel]; [lia|]. reflexivity.
  - destruct elems as [|[d|sym|l|f] args]; try discriminate.
    apply Forall_cons in IH as [_ IH].
    cbn [arith] in Harith. apply andb_true_iff in Harith as [Hsym Hargs].
    destruct fuel as [|fuel]; [lia|].
    assert (fold_right (fun e n => Nat.max (depth e) n) 0%nat args < fuel)%nat as Hdeep.
    { cbn [depth fold_right] in Hfuel. simpl in Hfuel. lia. }
    assert (exists fuel', fuel = S fuel') as [fuel' ->] by (destruct fuel; [lia|eauto]).
    destruct (String.eqb sym "+") eqn:Hplus.
    + apply String.eqb_eq in Hplus as ->.
      rewrite eval_application by reflexivity.
      rewrite (eval_symbol fuel' _ _ _ _ plus_bound). cbn [obind].
      rewrite (eval_args_arith args (S fuel') IH Hargs Hdeep). cbn [obind invoke lift].
      cbn [call_builtin]. unfold plus. rewrite plus_loop_numbers. reflexivity.
    + cbn [orb] in Hsym. apply andb_true_iff in Hsym as [Hminus Hne].
      apply String.eqb_eq in Hminus as ->.
      rewrite eval_application by reflexivity.
      rewrite (eval_symbol fuel' _ _ _ _ minus_bound). cbn [obind].
      rewrite (eval_args_arith args (S fuel') IH Hargs Hdeep). cbn [obind invoke lift].
      cbn [call_builtin denote]. cbn [String.eqb Ascii.eqb Bool.eqb].
      destruct args as [|a [|b args]]; [discriminate| reflexivity |].
      cbn [map minus]. 
      change (Number (denote b) :: map Number (map denote args))
        with (map Number (denote b :: map denote args)).
      rewrite minus_loop_numbers. reflexivity.
Qed.

End Arithmetic.

(** X21: a term built of numbers, [+] with any arguments and [-] with at
    least one, nested at will, evaluates to the number it stands for (the
    sums and differences taken from the left in binary64) and leaves the
    store as it was, in every environment where [+] and [-] are found as
    the built-ins; fuel beyond the nesting depth is enough. *)
Theorem arithmetic_evaluates_to_its_value (env : loc) (h : Heap)
    (expr : Expression) (fuel : nat) :
  find h env "+" = Some (Func (Builtin builtin_plus)) ->
  find h env "-" = Some (Func (Builtin builtin_minus)) ->
  arith expr = true ->
  (depth expr < fuel)%nat ->
  eval fuel expr env h = Returned (Number (denote expr)) h.
Proof.
  intros Hplus Hminus Harith Hfuel.
  apply (arith_evaluates env h Hplus Hminus expr Harith fuel Hfuel).
Qed.

Lemma arithmetic_evaluates_to_its_value_witness :
  eval 3 (ListOf [Symbol "-"; ListOf [Symbol "+"; Number 1; Number 2; Number 3];
                  ListOf [Symbol "-"; Number 5]; ListOf [Symbol "+"]])
       globalEnv initial_heap =
  Returned (Number (denote
    (ListOf [Symbol "-"; ListOf [Symbol "+"; Number 1; Number 2; Number 3];
             ListOf [Symbol "-"; Number 5]; ListOf [Symbol "+"]]))) initial_heap.
Proof.
  apply (arithmetic_evaluates_to_its_value globalEnv initial_heap);
    [vm_compute; reflexivity | vm_compute; reflexivity | reflexivity | simpl; lia].
Defined.
